(** * Beast dynamic buffers and the SOCKS5 handshake operation

    A shallow embedding of

    - [boost/beast/core/detail/impl/buffers_pair.ipp]
    - [boost/beast/core/multi_buffer.hpp] ([storage_element], [discount],
      [buffer_sequence_iterator], [storage_element_container]) and the
      [flat_static_buffer_base] members that follow it
    - [boost/beast/core/detail/dynamic_buffer_handle.hpp]
    - [boost/beast/core/impl/dynamic_buffer.hpp] ([dynamic_buffer_v0_proxy])
    - [boost/beast/core/impl/buffered_read_stream.hpp]
    - [example/contrib/socks-client/socks/impl/async_handshake_v5.hpp]

    Conventions.  A [char*] is an address in a flat byte memory
    [Z -> byte]; [std::size_t] is a [Z] in [0, 2^64) and every unsigned
    operation that can wrap is written with [sz_add] / [sz_sub]; a
    [std::vector] is a [list]; a pointer into a vector is an index;
    a thrown exception or a failed [BOOST_ASSERT] is a constructor of the
    result type. *)

From Stdlib Require Import ZArith Lia List Bool.
From Stdlib.Strings Require Import Byte.
From stdpp Require Import base list.
Import ListNotations.
Local Open Scope Z_scope.

(** ** Machine integers and raw memory *)

Definition size_t_modulus : Z := 2 ^ 64.

Definition wrap (x : Z) : Z := x mod size_t_modulus.
Definition sz_add (a b : Z) : Z := wrap (a + b).
Definition sz_sub (a b : Z) : Z := wrap (a - b).

Definition is_size_t (x : Z) : Prop := 0 <= x < size_t_modulus.

Definition memory := Z -> byte.

(** The [k] bytes stored from address [p] upwards. *)
Fixpoint read_n (mem : memory) (p : Z) (k : nat) : list byte :=
  match k with
  | O => []
  | S k' => mem p :: read_n mem (p + 1) k'
  end.

(** [net::const_buffer] / [net::mutable_buffer]: a pointer and a length. *)
Record buffer := mk_buffer { data : Z; size : Z }.

(** The two members under names that no module shadows. *)
Abbreviation buf_data := data (only parsing).
Abbreviation buf_size := size (only parsing).

(** The default-constructed buffer [{}]. *)
Definition null_buffer : buffer := mk_buffer 0 0.

(** [b += n] of asio: advance by [min n size]. *)
Definition buffer_advance (b : buffer) (n : Z) : buffer :=
  let offset := if n <? size b then n else size b in
  mk_buffer (data b + offset) (size b - offset).

Definition buffer_bytes (mem : memory) (b : buffer) : list byte :=
  read_n mem (data b) (Z.to_nat (size b)).

(** [inner] designates memory inside [outer]. *)
Definition within (inner outer : buffer) : Prop :=
  data outer <= data inner /\ data inner + size inner <= data outer + size outer.

(** ** buffers_pair.ipp *)

Module BuffersPair.

(** [b_[0]], [b_[1]]. *)
Record buffers_pair := mk_pair { b_0 : buffer; b_1 : buffer }.

(** [buffers_pair(buffers_pair const& other, std::size_t pos, std::size_t n)].
    The statements of the constructor body in order; a [return] ends the
    [let] chain. *)
Definition sub_range (other : buffers_pair) (pos n : Z) : buffers_pair :=
  let b0 := b_0 other in
  let b1 := b_1 other in
  let '(pos, b0, b1) :=
    if size b0 <=? pos
    then (sz_sub pos (size b0), b1, null_buffer)
    else (pos, b0, b1) in
  if size b0 <=? pos then mk_pair null_buffer b1
  else
    let b0 := buffer_advance b0 pos in
    if n <=? size b0 then mk_pair (mk_buffer (data b0) n) null_buffer
    else
      let n := sz_sub n (size b0) in
      if n <=? size b1 then mk_pair b0 (mk_buffer (data b1) n)
      else mk_pair b0 b1.

(** The byte stream a pair stands for: first region, then second. *)
Definition flatten (mem : memory) (p : buffers_pair) : list byte :=
  buffer_bytes mem (b_0 p) ++ buffer_bytes mem (b_1 p).

Definition total_size (p : buffers_pair) : Z := size (b_0 p) + size (b_1 p).

(** A region of the result is empty or lies inside a source region. *)
Definition region_ok (src : buffers_pair) (b : buffer) : Prop :=
  size b = 0 \/ within b (b_0 src) \/ within b (b_1 src).

Definition wf (p : buffers_pair) : Prop :=
  is_size_t (size (b_0 p)) /\ is_size_t (size (b_1 p)).

End BuffersPair.


(** ** multi_buffer.hpp *)

(** [struct storage_element]: four cursors into one allocation. *)
Module storage_element.

Record t := mk {
  begin_data_ : Z;
  end_data_ : Z;
  begin_used_ : Z;
  end_used_ : Z
}.

(** [storage_element(required_capacity, alloc)]; [p] is the address the
    allocator returned. *)
Definition make (p required_capacity : Z) : t :=
  mk p (p + required_capacity) p p.

Definition data (e : t) : Z := begin_used_ e.

(** [static_cast<std::size_t>(std::distance(begin_used_, end_used_))] *)
Definition size (e : t) : Z := wrap (end_used_ e - begin_used_ e).

Definition available (e : t) : Z := wrap (end_data_ e - end_used_ e).

Definition capacity (e : t) : Z := wrap (end_data_ e - begin_data_ e).

(** [acquire(n)]; [None] is the failed [BOOST_ASSERT(available() >= n)]. *)
Definition acquire (e : t) (n : Z) : option t :=
  if n <=? available e
  then Some (mk (begin_data_ e) (end_data_ e) (begin_used_ e) (end_used_ e + n))
  else None.

(** [consume(n)]; [None] is the failed [BOOST_ASSERT(size() >= n)]. *)
Definition consume (e : t) (n : Z) : option t :=
  if n <=? size e
  then Some (mk (begin_data_ e) (end_data_ e) (begin_used_ e + n) (end_used_ e))
  else None.

(** [clear()]: [begin_used_ = end_used_ = data()] *)
Definition clear (e : t) : t :=
  let end_used := data e in
  mk (begin_data_ e) (end_data_ e) end_used end_used.

(** [operator net::mutable_buffer()] / [operator net::const_buffer()] *)
Definition to_buffer (e : t) : buffer := mk_buffer (data e) (size e).

(** The class invariant [begin_data_ <= begin_used_ <= end_used_ <= end_data_],
    with a capacity that fits [std::size_t]. *)
Definition wf (e : t) : Prop :=
  begin_data_ e <= begin_used_ e /\ begin_used_ e <= end_used_ e /\
  end_used_ e <= end_data_ e /\ end_data_ e - begin_data_ e < size_t_modulus.

End storage_element.

(** [struct discount] *)
Module discount.

Record t := mk { amount : Z; where_ : Z }.

(** [operator+=(int n)]: [where -= n]. *)
Definition advance (d : t) (n : Z) : t := mk (amount d) (where_ d - n).

Definition applies (d : t) : bool :=
  (where_ d =? 0) && negb (amount d =? 0).

End discount.

(** A [storage_element*] into the vector of a container: the index of the
    slot it points at, or [nullptr]. *)
Inductive element_ptr := nullptr | slot (i : Z).

Definition ptr_eqb (p q : element_ptr) : bool :=
  match p, q with
  | nullptr, nullptr => true
  | slot i, slot j => i =? j
  | _, _ => false
  end.

(** [p + n]; only [nullptr + 0] is ever formed on a null pointer. *)
Definition ptr_add (p : element_ptr) (n : Z) : element_ptr :=
  match p with
  | nullptr => nullptr
  | slot i => slot (i + n)
  end.

(** [p < q] on pointers into one vector. *)
Definition ptr_ltb (p q : element_ptr) : bool :=
  match p, q with
  | slot i, slot j => i <? j
  | _, _ => false
  end.

(** [std::distance(first, last)] *)
Definition distance (first last : element_ptr) : Z :=
  match first, last with
  | slot i, slot j => j - i
  | _, _ => 0
  end.

(** Dereferencing a pointer into [store]; [None] when [p] designates no element
    of the vector (null, before the first or past the last element). *)
Definition element_at (store : list storage_element.t) (i : Z) : option storage_element.t :=
  if 0 <=? i then store !! Z.to_nat i else None.

Definition load (store : list storage_element.t) (p : element_ptr) : option storage_element.t :=
  match p with
  | nullptr => None
  | slot i => element_at store i
  end.

(** [struct buffer_sequence_iterator] *)
Module buffer_sequence_iterator.

Record t := mk {
  f_ : element_ptr;
  initial_discount_ : discount.t;
  final_discount_ : discount.t
}.

Definition trim (it : t) (result : buffer) : buffer :=
  let result :=
    if discount.applies (initial_discount_ it)
    then buffer_advance result (discount.amount (initial_discount_ it))
    else result in
  if discount.applies (final_discount_ it)
  then mk_buffer (data result + discount.amount (final_discount_ it))
                 (sz_sub (size result) (discount.amount (final_discount_ it)))
  else result.

(** Dereference, [operator *] *)
Definition deref (store : list storage_element.t) (it : t) : option buffer :=
  e ← load store (f_ it);
  Some (trim it (storage_element.to_buffer e)).

(** [operator==] *)
Definition eqb (a b : t) : bool := ptr_eqb (f_ a) (f_ b).

(** [operator+=] *)
Definition advance (it : t) (n : Z) : t :=
  mk (ptr_add (f_ it) n)
     (discount.advance (initial_discount_ it) n)
     (discount.advance (final_discount_ it) n).


(** [it + n], [n + it] *)
Definition plus (it : t) (n : Z) : t := advance it n.


(** [a - b] *)
Definition diff (a b : t) : Z := distance (f_ b) (f_ a).

(** [operator[]]: the iterator plus [n], dereferenced *)
Definition index (store : list storage_element.t) (it : t) (n : Z) : option buffer :=
  deref store (plus it n).

(** [operator<], "note: reversed polarity": [lhs.f_ > rhs.f_] *)
Definition less (lhs rhs : t) : bool := ptr_ltb (f_ rhs) (f_ lhs).

(** [operator>], "note: reversed polarity": [lhs.f_ < rhs.f_] *)
Definition greater (lhs rhs : t) : bool := ptr_ltb (f_ lhs) (f_ rhs).

(** [operator>=]: [!(lhs < rhs)] *)
Definition greater_equal (lhs rhs : t) : bool := negb (less lhs rhs).

(** [operator<=]: [!(lhs > rhs)] *)
Definition less_equal (lhs rhs : t) : bool := negb (greater lhs rhs).

End buffer_sequence_iterator.

(** [storage_element_container::buffer_sequence] *)
Module buffer_sequence.
Import buffer_sequence_iterator.

Record t := mk { begin_ : buffer_sequence_iterator.t; end_ : buffer_sequence_iterator.t }.

(** [buffer_sequence(finger first, finger last)] *)
Definition make (first last : element_ptr) : t :=
  let b := buffer_sequence_iterator.mk first
             (discount.mk 0 0)
             (discount.mk 0 (distance first last - 1)) in
  mk b (advance b (distance first last)).

(** Number of elements between [begin()] and [end()]. *)
Definition count (v : t) : Z := distance (f_ (begin_ v)) (f_ (end_ v)).

(** The loop of [net::buffer_size]: [k] elements from [it] on, adding
    each size to [total]. *)
Fixpoint buffer_size_loop (store : list storage_element.t)
    (it : buffer_sequence_iterator.t) (k : nat) (total : Z) : option Z :=
  match k with
  | O => Some total
  | S k' =>
      b ← deref store it;
      buffer_size_loop store (advance it 1) k' (sz_add total (size b))
  end.

(** [net::buffer_size] of this sequence; the iteration from [begin()] reaches
    [end()] after [count] increments. *)
Definition buffer_size (store : list storage_element.t) (v : t) : option Z :=
  if count v <? 0 then None
  else buffer_size_loop store (begin_ v) (Z.to_nat (count v)) 0.

(** The dereferenced regions for [it] from [begin()] to [end()]. *)
Fixpoint regions_loop (store : list storage_element.t)
    (it : buffer_sequence_iterator.t) (k : nat) : option (list buffer) :=
  match k with
  | O => Some []
  | S k' =>
      b ← deref store it;
      bs ← regions_loop store (advance it 1) k';
      Some (b :: bs)
  end.

Definition regions (store : list storage_element.t) (v : t) : option (list buffer) :=
  if count v <? 0 then None
  else regions_loop store (begin_ v) (Z.to_nat (count v)).

(** The flattened byte stream of the view. *)
Definition flatten (mem : memory) (store : list storage_element.t) (v : t)
    : option (list byte) :=
  bs ← regions store v;
  Some (concat (map (buffer_bytes mem) bs)).

(** [current_size] lambda of [adjust]. *)
Definition current_size (store : list storage_element.t) (current : Z)
    (current_discount : discount.t) : option Z :=
  e ← element_at store current;
  let size := storage_element.size e in
  Some (if discount.applies current_discount
        then sz_sub size (discount.amount current_discount)
        else size).

(** First loop of [adjust]: [while (first != last && pos)], with [k] the
    distance from [first] to [last]. *)
Fixpoint skip_loop (store : list storage_element.t) (k : nat)
    (first pos : Z) (initial_discount : discount.t) : option (Z * discount.t) :=
  match k with
  | O => Some (first, initial_discount)
  | S k' =>
      if pos =? 0 then Some (first, initial_discount)
      else
        e ← element_at store first;
        if storage_element.size e <? pos
        then
          let pos := sz_sub pos (storage_element.size e) in
          skip_loop store k' (first + 1) pos (discount.mk pos 0)
        else Some (first, discount.mk pos 0)
  end.

(** Second loop of [adjust]: [while (current != last)], with [k] the
    distance from [current] to [last]. *)
Fixpoint limit_loop (store : list storage_element.t) (k : nat)
    (first current limit : Z) (current_discount final_discount : discount.t)
    : option discount.t :=
  match k with
  | O => Some final_discount
  | S k' =>
      size ← current_size store current current_discount;
      if limit <=? size
      then Some (discount.mk (sz_sub size limit) (current - first))
      else limit_loop store k' first (current + 1) (sz_sub limit size)
             current_discount final_discount
  end.

Definition null_iterator : buffer_sequence_iterator.t :=
  buffer_sequence_iterator.mk nullptr (discount.mk 0 0) (discount.mk 0 0).

(** [void adjust(std::size_t pos, std::size_t limit)].  [None]: the body
    dereferences a pointer that designates no element of the vector. *)
Definition adjust (store : list storage_element.t) (v : t) (pos limit : Z)
    : option t :=
  if eqb (begin_ v) (end_ v) then Some v
  else
    size ← buffer_size store v;
    let size := if pos <? size then sz_sub size pos else 0 in
    let limit := Z.min limit size in
    if limit =? 0 then Some (mk null_iterator null_iterator)
    else
      match f_ (begin_ v), f_ (end_ v) with
      | slot first, slot last =>
          let initial_discount := initial_discount_ (begin_ v) in
          let pos :=
            if discount.applies initial_discount
            then sz_add pos (discount.amount initial_discount)
            else pos in
          '(first, initial_discount) ←
            skip_loop store (Z.to_nat (last - first)) first pos initial_discount;
          let current := first in
          let current_discount := initial_discount in
          size0 ← current_size store current current_discount;
          let final_discount := discount.mk (sz_sub limit size0) (current - first) in
          final_discount ←
            limit_loop store (Z.to_nat (last - current)) first current limit
              current_discount final_discount;
          let b := buffer_sequence_iterator.mk (slot first) initial_discount final_discount in
          Some (mk b (plus b (last - first)))
      | _, _ => None
      end.

(** [adjusted(input, pos, limit)] *)
Definition adjusted (store : list storage_element.t) (v : t) (pos limit : Z) : option t :=
  adjust store v pos limit.

(** A view with no element. *)
Definition empty (v : t) : Prop := count v = 0.

(** A view that is null or whose range lies in the store. *)
Definition in_store (store : list storage_element.t) (v : buffer_sequence.t) : Prop :=
  (f_ (begin_ v) = nullptr /\ f_ (end_ v) = nullptr)
  \/ exists i j, f_ (begin_ v) = slot i /\ f_ (end_ v) = slot j
                 /\ 0 <= i <= j /\ j <= Z.of_nat (length store).

End buffer_sequence.

(** [struct storage_element_container] *)
Module storage_element_container.

Record t := mk {
  store_ : list storage_element.t;
  limit_ : Z;
  min_block_size_ : Z
}.

(** [storage_element_container(limit, alloc)] with the default member
    initialiser [min_block_size_ = 4096]. *)
Definition make (limit : Z) : t := mk [] limit 4096.

(** [make_sequence()]: from [store_.data()] to [store_.data() + store_.size()]. *)
Definition make_sequence (c : t) : buffer_sequence.t :=
  buffer_sequence.make (slot 0) (slot (Z.of_nat (length (store_ c)))).

(** [round_up] *)
Definition round_up (required : Z) : Z := required.

(** [void add(std::size_t required_space)].

    [auto& last = * store_.end()] binds the slot one past the last element
    of the vector, which is no element of [store_]; its content is the
    parameter [past_the_end], and the function returns it next to the
    container because [last.acquire] writes to it.  [p] is the address the
    allocator returns for a new block.  [None] is a failed [BOOST_ASSERT]. *)
Definition add (past_the_end : storage_element.t) (p : Z) (required_space : Z) (c : t)
    : option (t * storage_element.t) :=
  let new_block (c : t) :=
    let min_block_size :=
      if min_block_size_ c <? required_space
      then round_up required_space else min_block_size_ c in
    element ← storage_element.acquire
                (storage_element.make p min_block_size) required_space;
    Some (mk (store_ c ++ [element]) (limit_ c) min_block_size, past_the_end) in
  if negb (Nat.eqb (length (store_ c)) 0)
  then
    let last := past_the_end in
    if storage_element.available last <=? required_space
    then
      last ← storage_element.acquire last required_space;
      Some (c, last)
    else new_block c
  else new_block c.

(** The loop of [consume]; the second component lists the blocks handed
    to [erase_element], which deallocates them. *)
Fixpoint consume_loop (n : Z) (store : list storage_element.t)
    : option (list storage_element.t * list storage_element.t) :=
  match store with
  | [] => Some ([], [])
  | e :: rest =>
      if n =? 0 then Some (store, [])
      else if storage_element.size e <=? n
      then
        '(store', freed) ← consume_loop (sz_sub n (storage_element.size e)) rest;
        Some (store', e :: freed)
      else
        e' ← storage_element.consume e n;
        Some (e' :: rest, [])
  end.

(** [void consume(std::size_t n)] *)
Definition consume (n : Z) (c : t) : option (t * list storage_element.t) :=
  '(store', freed) ← consume_loop n (store_ c);
  Some (mk store' (limit_ c) (min_block_size_ c), freed).

(** The readable run: the used bytes of every block, in order. *)
Definition readable (mem : memory) (store : list storage_element.t) : list byte :=
  concat (map (fun e => buffer_bytes mem (storage_element.to_buffer e)) store).

(** Total number of readable bytes. *)
Definition readable_size (store : list storage_element.t) : Z :=
  foldr (fun e acc => storage_element.size e + acc) 0 store.

End storage_element_container.

(** ** Results of operations that may throw *)

(** An operation on a state [S] either returns a value or throws
    [std::length_error]; both carry the state the object is left in. *)
Inductive outcome (S A : Type) :=
  | Returns (a : A) (s : S)
  | Throws_length_error (s : S).
Arguments Returns {S A} a s.
Arguments Throws_length_error {S A} s.

Definition final_state {S A} (o : outcome S A) : S :=
  match o with
  | Returns _ s => s
  | Throws_length_error s => s
  end.

Definition throws {S A} (o : outcome S A) : bool :=
  match o with
  | Returns _ _ => false
  | Throws_length_error _ => true
  end.

(** ** flat_static_buffer.ipp *)

Module flat_static_buffer_base.

(** Layout:
<<
    begin_     in_          out_        last_      end_
      |<------->|<---------->|<---------->|<------->|
                |  readable  |  writable  |
>> *)
Record t := mk { begin_ : Z; in_ : Z; out_ : Z; last_ : Z; end_ : Z }.

(** Modelled from the spec: [dist], [size], [max_size] and [capacity] are
    inline members of flat_static_buffer.hpp, which is not among the
    sources.  [size] is the number of readable bytes (from [in_] to [out_]
    in the layout above), [max_size] the configured ceiling, here the
    whole array (from [begin_] to [end_]), and [capacity] the same. *)
Definition dist (first last : Z) : Z := wrap (last - first).
Definition size (b : t) : Z := wrap (out_ b - in_ b).
Definition max_size (b : t) : Z := dist (begin_ b) (end_ b).
Definition capacity (b : t) : Z := max_size b.

(** [std::memmove(dst, src, len)] *)
Definition memmove (mem : memory) (dst src len : Z) : memory :=
  fun a => if (dst <=? a) && (a <? dst + len) then mem (src + (a - dst)) else mem a.

(** [clear()] *)
Definition clear (b : t) : t := mk (begin_ b) (begin_ b) (begin_ b) (begin_ b) (end_ b).

(** [prepare(n)] on the buffer and the memory it points into. *)
Definition prepare (n : Z) (s : t * memory) : outcome (t * memory) buffer :=
  let '(b, mem) := s in
  if n <=? dist (out_ b) (end_ b)
  then Returns (mk_buffer (out_ b) n)
         (mk (begin_ b) (in_ b) (out_ b) (out_ b + n) (end_ b), mem)
  else
    let len := size b in
    if sz_sub (capacity b) len <? n
    then Throws_length_error (b, mem)
    else
      let mem := if 0 <? len then memmove mem (begin_ b) (in_ b) len else mem in
      let in' := begin_ b in
      let out' := in' + len in
      Returns (mk_buffer out' n) (mk (begin_ b) in' out' (out' + n) (end_ b), mem).

(** [consume(n)] *)
Definition consume (n : Z) (b : t) : t :=
  if size b <=? n
  then mk (begin_ b) (begin_ b) (begin_ b) (last_ b) (end_ b)
  else mk (begin_ b) (in_ b + n) (out_ b) (last_ b) (end_ b).

(** The readable bytes. *)
Definition readable (mem : memory) (b : t) : list byte :=
  buffer_bytes mem (mk_buffer (in_ b) (size b)).

(** The cursors are ordered as in the layout. *)
Definition wf (b : t) : Prop :=
  begin_ b <= in_ b /\ in_ b <= out_ b /\ out_ b <= end_ b /\
  end_ b - begin_ b < size_t_modulus.

(** [reset(p, n)] *)
Definition reset (p n : Z) : t := mk p p p p (p + n).

(** Modelled from the spec: [commit(n)] is an inline member of
    flat_static_buffer.hpp, which is not among the sources.  It appends
    [min(n, outstanding prepared bytes)] from the writable run (from
    [out_] to [last_] in the layout above) onto the end of the readable
    run. *)
Definition commit (n : Z) (b : t) : t :=
  mk (begin_ b) (in_ b) (out_ b + Z.min n (dist (out_ b) (last_ b))) (last_ b) (end_ b).

(** [shrink_impl(n)] *)
Definition shrink_impl (n : Z) (s : t * memory) : outcome (t * memory) unit :=
  match prepare 0 s with
  | Throws_length_error s => Throws_length_error s
  | Returns _ (b, mem) =>
      let n := Z.min (size b) n in
      Returns tt (mk (begin_ b) (in_ b) (out_ b - n) (last_ b) (end_ b), mem)
  end.

(** The members that return buffer views. *)
Module views.

(** Modelled from the spec: [data()] is an inline member of
    flat_static_buffer.hpp, which is not among the sources.  It is the view
    over the entire readable run (from [in_] to [out_] in the layout
    above). *)
Definition data (b : t) : buffer := mk_buffer (in_ b) (dist (in_ b) (out_ b)).

(** [data_impl(pos, n)], const and mutable alike. *)
Definition data_impl (pos n : Z) (b : t) : buffer :=
  let result := data b in
  let result := buffer_advance result (Z.min pos (buf_size result)) in
  mk_buffer (buf_data result) (Z.min n (buf_size result)).

End views.

End flat_static_buffer_base.

(** ** dynamic_buffer_handle.hpp *)

(** The operations [dynamic_buffer_handle<AsioV2DynamicBuffer, asio_v2_behaviour>]
    uses of its template argument, a net.ts DynamicBuffer_v2. *)
Class DynamicBuffer_v2 (B : Type) := {
  v2_size : B -> Z;
  v2_max_size : B -> Z;
  v2_capacity : B -> Z;
  v2_data : B -> Z -> Z -> list byte;
  v2_grow : B -> Z -> outcome B unit;
  v2_shrink : B -> Z -> B;
  v2_consume : B -> Z -> B
}.

(** A DynamicBuffer_v2 over a byte vector with a ceiling, with the
    behaviour dynamic_buffer.hpp documents for its members:
    [grow] "Resizes the input area to accommodate an additional n bytes at
    the end", "std::length_error If size() + n > max_size()";
    [shrink] "Erases n bytes from the end of the input area.  If n is
    greater than the current size of the input area, the input area is
    emptied"; [consume] "If n is greater than the size of the input
    sequence, the entire input sequence is consumed and no error is issued";
    [data] "If the underlying memory is shorter, the buffer sequence
    represents as many bytes as are available".  No spare storage is
    modelled: the capacity is the size. *)
Module vector_buffer.

Record t := mk { bytes : list byte; ceiling : Z }.

Definition size (b : t) : Z := Z.of_nat (length (bytes b)).

Definition grow (b : t) (n : Z) : outcome t unit :=
  if ceiling b <? size b + n
  then Throws_length_error b
  else Returns tt (mk (bytes b ++ replicate (Z.to_nat n) x00) (ceiling b)).

Definition shrink (b : t) (n : Z) : t :=
  mk (take (Z.to_nat (size b - Z.min n (size b))) (bytes b)) (ceiling b).

Definition consume (b : t) (n : Z) : t :=
  mk (drop (Z.to_nat n) (bytes b)) (ceiling b).

Definition data (b : t) (pos n : Z) : list byte :=
  take (Z.to_nat n) (drop (Z.to_nat pos) (bytes b)).

End vector_buffer.

#[export] Instance vector_buffer_v2 : DynamicBuffer_v2 vector_buffer.t := {
  v2_size := vector_buffer.size;
  v2_max_size := vector_buffer.ceiling;
  v2_capacity := vector_buffer.size;
  v2_data := vector_buffer.data;
  v2_grow := vector_buffer.grow;
  v2_shrink := vector_buffer.shrink;
  v2_consume := vector_buffer.consume
}.

(** [dynamic_buffer_handle<AsioV2DynamicBuffer, asio_v2_behaviour>] *)
Module dynamic_buffer_handle.
Section Handle.
Context {B : Type} `{DynamicBuffer_v2 B}.

(** [struct impl_class]: the buffer and "the value of n in the last call
    to prepare(n)". *)
Record impl_class := mk { dyn_buf : B; prepared : Z }.

(** [dynamic_buffer_handle(AsioV2DynamicBuffer underlying)] *)
Definition make (underlying : B) : impl_class := mk underlying 0.

Definition capacity (impl : impl_class) : Z := v2_capacity (dyn_buf impl).

Definition commit (n : Z) (impl : impl_class) : impl_class :=
  let dyn_buf' :=
    if n <? prepared impl
    then
      let excess := sz_sub (prepared impl) n in
      v2_shrink (dyn_buf impl) excess
    else dyn_buf impl in
  mk dyn_buf' 0.

Definition consume (n : Z) (impl : impl_class) : impl_class :=
  mk (v2_consume (dyn_buf impl) n) (prepared impl).

Definition data (impl : impl_class) : list byte :=
  v2_data (dyn_buf impl)
    (sz_sub (v2_size (dyn_buf impl)) (prepared impl)) (prepared impl).

Definition max_size (impl : impl_class) : Z := v2_max_size (dyn_buf impl).

Definition size (impl : impl_class) : Z :=
  sz_sub (v2_size (dyn_buf impl)) (prepared impl).

Definition prepare (n : Z) (impl : impl_class) : outcome impl_class (list byte) :=
  if v2_max_size (dyn_buf impl) <? sz_add (v2_size (dyn_buf impl)) n
  then Throws_length_error impl
  else
    let impl := mk (dyn_buf impl) n in
    match v2_grow (dyn_buf impl) n with
    | Throws_length_error b => Throws_length_error (mk b (prepared impl))
    | Returns _ b =>
        let impl := mk b (prepared impl) in
        let buffers :=
          v2_data (dyn_buf impl)
            (sz_sub (v2_size (dyn_buf impl)) (prepared impl)) (prepared impl) in
        Returns buffers impl
    end.

End Handle.
Arguments impl_class B : clear implicits.
End dynamic_buffer_handle.

(** ** async_handshake_v5.hpp *)

Module socks.

(** Modelled from the spec: the constants of socks/detail/protocol.hpp,
    which is not among the sources.  The wire format gives the version
    byte [0x05] and the method codes of "no-auth" and
    "username/password"; [SOCKS5_AUTH_UNACCEPTABLE] is the "no acceptable
    methods" code and is only returned together with an error. *)
Definition SOCKS_VERSION_5 : byte := x05.
Definition SOCKS5_AUTH_NONE : byte := x00.
Definition SOCKS5_AUTH : byte := x02.
Definition SOCKS5_AUTH_UNACCEPTABLE : byte := xff.

(** Modelled from the spec: the error codes of socks/error.hpp, which is
    not among the sources, as far as this file names them; [success] is
    the default-constructed [error_code], [collaborator_error] any other
    code delivered by the transport or by a sub-operation. *)
Inductive error_code :=
  | success
  | protocol_error
  | socks_unsupported_authentication_version
  | socks_not_implemented
  | socks_username_required
  | collaborator_error (code : Z).

(** [if (ec)] *)
Definition failed (ec : error_code) : bool :=
  match ec with
  | success => false
  | _ => true
  end.

(** The value of the [boost::asio::coroutine] base: where [reenter]
    resumes.  [yield] records the point after its statement; leaving the
    [reenter] block without a [yield] marks the coroutine complete. *)
Inductive resume_point :=
  | at_start
  | after_write_greeting
  | after_read_method_selection
  | after_authentication
  | coroutine_complete.

Record socks5_op := mk {
  coro_ : resume_point;
  buffer_ : list byte;
  hostname_ : list byte;
  port_ : Z;
  username_ : list byte;
  password_ : list byte;
  use_hostname_ : bool;
  step_ : Z
}.

Definition set_coro (op : socks5_op) (r : resume_point) : socks5_op :=
  mk r (buffer_ op) (hostname_ op) (port_ op) (username_ op) (password_ op)
     (use_hostname_ op) (step_ op).

Definition set_buffer (op : socks5_op) (b : list byte) : socks5_op :=
  mk (coro_ op) b (hostname_ op) (port_ op) (username_ op) (password_ op)
     (use_hostname_ op) (step_ op).

(** What one call of [operator()] does to the outside, in order. *)
Inductive action :=
  | async_write (buffers : list byte)
  | async_read (n : nat)
  | async_socks5_auth_username_password (username password : list byte)
  | complete_now (ec : error_code).

(** The constructor, before it starts the operation. *)
Definition make (hostname : list byte) (port : Z) (username password : list byte)
    (use_hostname : bool) : socks5_op :=
  mk at_start [] hostname port username password use_hostname 0.

Definition build_method_selection_message (op : socks5_op) : socks5_op :=
  set_buffer op ([] ++ [x05] ++ [x02] ++ [x00] ++ [x02]).

(** [buffer_.resize(2)] *)
Definition prepare_rx_method_selection (op : socks5_op) : socks5_op :=
  set_buffer op (take 2 (buffer_ op ++ [x00; x00])).

(** [buffer_[i]] *)
Definition buffer_at (op : socks5_op) (i : nat) : byte := nth i (buffer_ op) x00.

(** [validate_authentication_method(ec)]: the result and the new [ec]. *)
Definition validate_authentication_method (op : socks5_op) (ec : error_code)
    : byte * error_code :=
  let result := SOCKS5_AUTH_UNACCEPTABLE in
  if negb (Byte.eqb (buffer_at op 0) SOCKS_VERSION_5)
  then (result, protocol_error)
  else
    let result := buffer_at op 1 in
    if Byte.eqb result SOCKS5_AUTH_NONE || Byte.eqb result SOCKS5_AUTH
    then (result, ec)
    else (result, socks_unsupported_authentication_version).

(** [operator()(error_code ec, std::size_t bytes_transferred)].

    The body is a [reenter (this) { ... }] block followed by
    [this->complete_now(ec)].  A [yield] runs its statement, records the
    resume point and transfers control to the end of the [reenter] block;
    a [break] leaves the block as well.  Either way the statement after
    the block, [this->complete_now(ec)], is executed next. *)
Definition invoke (op : socks5_op) (ec : error_code) (bytes_transferred : Z)
    : socks5_op * list action :=
  match coro_ op with
  | at_start =>
      let op := build_method_selection_message op in
      (set_coro op after_write_greeting,
       [async_write (buffer_ op); complete_now ec])
  | after_write_greeting =>
      if failed ec then (set_coro op coroutine_complete, [complete_now ec])
      else
        let op := prepare_rx_method_selection op in
        (set_coro op after_read_method_selection,
         [async_read (length (buffer_ op)); complete_now ec])
  | after_read_method_selection =>
      if failed ec then (set_coro op coroutine_complete, [complete_now ec])
      else
        let '(auth_method, ec) := validate_authentication_method op ec in
        if failed ec then (set_coro op coroutine_complete, [complete_now ec])
        else if Byte.eqb auth_method SOCKS5_AUTH_NONE
        then
          let ec := socks_not_implemented in
          (set_coro op coroutine_complete, [complete_now ec])
        else if Byte.eqb auth_method SOCKS5_AUTH
        then
          (set_coro op after_authentication,
           [async_socks5_auth_username_password (username_ op) (password_ op);
            complete_now ec])
        else
          let ec := socks_unsupported_authentication_version in
          (set_coro op coroutine_complete, [complete_now ec])
  | after_authentication =>
      if failed ec then (set_coro op coroutine_complete, [complete_now ec])
      else
        let ec := socks_not_implemented in
        (set_coro op coroutine_complete, [complete_now ec])
  | coroutine_complete => (op, [complete_now ec])
  end.

(** The completion of the outstanding asynchronous operation: its error
    code and, for a read, the bytes the transport stored in [buffer_]. *)
Record completion := mk_completion { c_ec : error_code; c_received : list byte }.

(** The bytes received overwrite the front of [buffer_]. *)
Definition deliver (op : socks5_op) (c : completion) : socks5_op :=
  set_buffer op
    (take (length (buffer_ op))
       (c_received c ++ drop (length (c_received c)) (buffer_ op))).

Definition is_async (a : action) : bool :=
  match a with
  | complete_now _ => false
  | _ => true
  end.

Definition is_completion (a : action) : bool := negb (is_async a).

(** Each completion of an outstanding operation re-enters [operator()];
    when an entry starts no asynchronous operation nothing re-enters it. *)
Fixpoint resume (op : socks5_op) (script : list completion) : list action :=
  match script with
  | [] => []
  | c :: script =>
      let '(op, actions) :=
        invoke (deliver op c) (c_ec c) (Z.of_nat (length (c_received c))) in
      actions ++ (if existsb is_async actions then resume op script else [])
  end.

(** A whole run: the constructor invokes the call operator with a default
    [error_code] and 0 bytes; the completions in [script] follow. *)
Definition run (op : socks5_op) (script : list completion) : list action :=
  let '(op, actions) := invoke op success 0 in
  actions ++ resume op script.

(** How often the completion handler is invoked in a trace. *)
Definition completions (trace : list action) : nat :=
  length (filter (fun a => is_completion a = true) trace).

(** Modelled from the spec: the greeting on the wire is
    [[0x05][n_methods][method...]]; the methods it advertises are the
    [n_methods] bytes after the count. *)
Definition advertised_methods (greeting : list byte) : list byte :=
  match greeting with
  | _ :: n :: methods => take (Byte.to_nat n) methods
  | _ => []
  end.

(** The greeting handed to the transport by a run. *)
Definition greeting (op : socks5_op) : list byte :=
  match run op [] with
  | async_write g :: _ => g
  | _ => []
  end.

Definition credentials_supplied (op : socks5_op) : Prop := username_ op <> [].

(** The greeting as the specification words it: no-auth is advertised,
    username/password exactly when credentials were supplied, and without
    credentials no-auth is the only method. *)
Definition greeting_follows_credentials (op : socks5_op) : Prop :=
  SOCKS5_AUTH_NONE ∈ advertised_methods (greeting op)
  /\ (SOCKS5_AUTH ∈ advertised_methods (greeting op) <-> credentials_supplied op)
  /\ (~ credentials_supplied op -> advertised_methods (greeting op) = [SOCKS5_AUTH_NONE]).

End socks.

(** ** dynamic_buffer.hpp: dynamic_buffer_v0_proxy *)

(** The operations [dynamic_buffer_v0_proxy<DynamicBuffer_v0>] uses of the
    buffer it refers to; [prepare] returns a sequence of regions. *)
Class DynamicBuffer_v0 (S : Type) := {
  v0_size : S -> Z;
  v0_max_size : S -> Z;
  v0_capacity : S -> Z;
  v0_prepare : Z -> S -> outcome S (list buffer);
  v0_commit : Z -> S -> S;
  v0_consume : Z -> S -> S
}.

(** [net::buffer_size] of a sequence of regions. *)
Definition buffers_size (bs : list buffer) : Z :=
  foldl (fun total b => sz_add total (buf_size b)) 0 bs.

(** The flat static buffer, with the memory it points into, as a
    DynamicBuffer_v0. *)
#[export] Instance flat_static_buffer_v0
    : DynamicBuffer_v0 (flat_static_buffer_base.t * memory) := {
  v0_size := fun s => flat_static_buffer_base.size (fst s);
  v0_max_size := fun s => flat_static_buffer_base.max_size (fst s);
  v0_capacity := fun s => flat_static_buffer_base.capacity (fst s);
  v0_prepare := fun n s =>
    match flat_static_buffer_base.prepare n s with
    | Returns w s => Returns [w] s
    | Throws_length_error s => Throws_length_error s
    end;
  v0_commit := fun n s => (flat_static_buffer_base.commit n (fst s), snd s);
  v0_consume := fun n s => (flat_static_buffer_base.consume n (fst s), snd s)
}.

Module dynamic_buffer_v0_proxy.
Section Proxy.
Context {S : Type} `{DynamicBuffer_v0 S}.

(** [dynamic_buffer_v0_proxy(DynamicBuffer_v0& storage)]: the proxy refers
    to [storage], which the constructor passes through [prepare(0)]. *)
Definition make (storage : S) : outcome S unit :=
  match v0_prepare 0 storage with
  | Returns _ s => Returns tt s
  | Throws_length_error s => Throws_length_error s
  end.

Definition size (storage : S) : Z := v0_size storage.

Definition max_size (storage : S) : Z := v0_max_size storage.

Definition capacity (storage : S) : Z := v0_capacity storage.

Definition consume (n : Z) (storage : S) : S := v0_consume n storage.

(** [grow(n)]: [storage_->commit(net::buffer_size(storage_->prepare(n)))] *)
Definition grow (n : Z) (storage : S) : outcome S unit :=
  match v0_prepare n storage with
  | Returns buffers s => Returns tt (v0_commit (buffers_size buffers) s)
  | Throws_length_error s => Throws_length_error s
  end.

End Proxy.
End dynamic_buffer_v0_proxy.

(** ** buffered_read_stream.hpp *)

(** The bytes [bytes] stored from address [p] upwards. *)
Definition store (mem : memory) (p : Z) (bytes : list byte) : memory :=
  fun a =>
    if (p <=? a) && (a <? p + Z.of_nat (length bytes))
    then nth (Z.to_nat (a - p)) bytes x00
    else mem a.

(** [net::buffer_copy(target, source)]: copies as many bytes as both
    regions have and returns their number. *)
Definition buffer_copy (target source : buffer) (mem : memory) : Z * memory :=
  let n := Z.min (buf_size target) (buf_size source) in
  (n, flat_static_buffer_base.memmove mem (buf_data target) (buf_data source) n).

Module buffered_read_stream.

(** [error_code]: the default-constructed value [{}] or an error. *)
Inductive error_code :=
  | no_error
  | error (code : Z).

(** [if(ec)] *)
Definition failed (ec : error_code) : bool :=
  match ec with
  | no_error => false
  | error _ => true
  end.

(** The next layer, a SyncReadStream and AsyncReadStream: a read into a
    region of [n] bytes yields the bytes it stores at the front of the
    region and an error code, and leaves the stream in a new state. *)
Class ReadStream (N : Type) := {
  stream_read_some : Z -> N -> list byte * error_code * N
}.

Section Stream.
Context {N : Type} `{ReadStream N}.

(** [read_size(buffer, max_size)] of read_size.hpp, which is not among the
    sources: the number of bytes to prepare for the next read. *)
Variable read_size : flat_static_buffer_base.t -> Z -> Z.

(** The members the functions of this file use; the [DynamicBuffer] is
    the flat static buffer. *)
Record t := mk {
  next_layer_ : N;
  buffer_ : flat_static_buffer_base.t;
  capacity_ : Z
}.

Definition set_buffer (s : t) (b : flat_static_buffer_base.t) : t :=
  mk (next_layer_ s) b (capacity_ s).

Definition set_next_layer (s : t) (next : N) : t :=
  mk next (buffer_ s) (capacity_ s).

(** [bytes_transferred = net::buffer_copy(buffers, buffer_.data());
    buffer_.consume(bytes_transferred);] *)
Definition copy_and_consume (buffers : buffer) (s : t) (mem : memory)
    : Z * (t * memory) :=
  let '(bytes_transferred, mem) :=
    buffer_copy buffers (flat_static_buffer_base.views.data (buffer_ s)) mem in
  (bytes_transferred,
   (set_buffer s (flat_static_buffer_base.consume bytes_transferred (buffer_ s)), mem)).

(** [read_some(buffers, ec)]: the final [ec] and the value returned. *)
Definition read_some (buffers : buffer) (s : t) (mem : memory)
    : outcome (t * memory) (error_code * Z) :=
  if flat_static_buffer_base.size (buffer_ s) =? 0
  then
    if capacity_ s =? 0
    then
      let '(received, ec, next) :=
        stream_read_some (buf_size buffers) (next_layer_ s) in
      Returns (ec, Z.of_nat (length received))
        (set_next_layer s next, store mem (buf_data buffers) received)
    else
      match flat_static_buffer_base.prepare
              (read_size (buffer_ s) (capacity_ s)) (buffer_ s, mem) with
      | Throws_length_error (b, mem) => Throws_length_error (set_buffer s b, mem)
      | Returns w (b, mem) =>
          let s := set_buffer s b in
          let '(received, ec, next) :=
            stream_read_some (buf_size w) (next_layer_ s) in
          let s := set_next_layer s next in
          let mem := store mem (buf_data w) received in
          let s :=
            set_buffer s
              (flat_static_buffer_base.commit (Z.of_nat (length received)) (buffer_ s)) in
          if failed ec
          then Returns (ec, 0) (s, mem)
          else
            let '(bytes_transferred, sm) := copy_and_consume buffers s mem in
            Returns (ec, bytes_transferred) sm
      end
  else
    let ec := no_error in
    let '(bytes_transferred, sm) := copy_and_consume buffers s mem in
    Returns (ec, bytes_transferred) sm.

(** [ops::read_op] *)
Record read_op := mk_op { b_ : buffer; step_ : Z }.

(** What a call of the operation ends with: one of the two calls that
    will invoke it again, or the completion. *)
Inductive action :=
  | next_layer_async_read_some (buffers : buffer)
  | post (ec : error_code) (bytes_transferred : Z)
  | complete (ec : error_code) (bytes_transferred : Z).

(** [read_op::operator()(self, ec, bytes_transferred)] *)
Definition read_op_call (op : read_op) (ec : error_code) (bytes_transferred : Z)
    (s : t) (mem : memory) : outcome (read_op * t * memory) action :=
  if step_ op =? 0
  then
    if flat_static_buffer_base.size (buffer_ s) =? 0
    then
      if capacity_ s =? 0
      then
        let op := mk_op (b_ op) 1 in
        Returns (next_layer_async_read_some (b_ op)) (op, s, mem)
      else
        let op := mk_op (b_ op) 2 in
        match flat_static_buffer_base.prepare
                (read_size (buffer_ s) (capacity_ s)) (buffer_ s, mem) with
        | Throws_length_error (b, mem) => Throws_length_error (op, set_buffer s b, mem)
        | Returns w (b, mem) =>
            Returns (next_layer_async_read_some w) (op, set_buffer s b, mem)
        end
    else
      let op := mk_op (b_ op) 3 in
      Returns (post ec 0) (op, s, mem)
  else if step_ op =? 1
  then Returns (complete ec bytes_transferred) (op, s, mem)
  else if step_ op =? 2
  then
    let s :=
      set_buffer s (flat_static_buffer_base.commit bytes_transferred (buffer_ s)) in
    let '(bytes_transferred, (s, mem)) := copy_and_consume (b_ op) s mem in
    Returns (complete ec bytes_transferred) (op, s, mem)
  else if step_ op =? 3
  then
    let '(bytes_transferred, (s, mem)) := copy_and_consume (b_ op) s mem in
    Returns (complete ec bytes_transferred) (op, s, mem)
  else Returns (complete ec bytes_transferred) (op, s, mem).

(** The composed operation: each call of the operation that ends in a
    read of the next layer or in a post is followed by the call that the
    completion of that read or post makes; [fuel] bounds the number of
    calls.  The result is what the completion handler receives. *)
Fixpoint compose (fuel : nat) (op : read_op) (ec : error_code)
    (bytes_transferred : Z) (s : t) (mem : memory)
    : option (outcome (t * memory) (error_code * Z)) :=
  match fuel with
  | O => None
  | S fuel =>
      match read_op_call op ec bytes_transferred s mem with
      | Throws_length_error (_, s, mem) => Some (Throws_length_error (s, mem))
      | Returns (complete ec bytes_transferred) (_, s, mem) =>
          Some (Returns (ec, bytes_transferred) (s, mem))
      | Returns (post ec bytes_transferred) (op, s, mem) =>
          compose fuel op ec bytes_transferred s mem
      | Returns (next_layer_async_read_some w) (op, s, mem) =>
          let '(received, ec, next) :=
            stream_read_some (buf_size w) (next_layer_ s) in
          compose fuel op ec (Z.of_nat (length received))
            (set_next_layer s next) (store mem (buf_data w) received)
      end
  end.

(** [async_read_some(buffers, handler)]: what [handler] receives.  The
    operation is first called with a default [error_code] and 0 bytes. *)
Definition async_read_some (fuel : nat) (buffers : buffer) (s : t) (mem : memory)
    : option (outcome (t * memory) (error_code * Z)) :=
  if (flat_static_buffer_base.size (buffer_ s) =? 0) && (capacity_ s =? 0)
  then
    let '(received, ec, next) :=
      stream_read_some (buf_size buffers) (next_layer_ s) in
    Some (Returns (ec, Z.of_nat (length received))
            (set_next_layer s next, store mem (buf_data buffers) received))
  else compose fuel (mk_op buffers 0) no_error 0 s mem.

End Stream.

Arguments t N : clear implicits.

End buffered_read_stream.

(** ** Sample stores *)

Module Samples.

(** A block allocated at [p] with capacity 4096 and [used] readable bytes. *)
Definition block (p used : Z) : storage_element.t :=
  storage_element.mk p (p + 4096) p (p + used).

(** Two blocks with 2 readable bytes each; three blocks likewise. *)
Definition two_blocks : list storage_element.t :=
  [block 1000 2; block 9000 2].

Definition three_blocks : list storage_element.t :=
  [block 1000 2; block 9000 2; block 20000 2].

(** A memory in which those blocks read "ab", "cd", "ef". *)
Definition letters : memory := fun a =>
  if a =? 1000 then "a"%byte else if a =? 1001 then "b"%byte
  else if a =? 9000 then "c"%byte else if a =? 9001 then "d"%byte
  else if a =? 20000 then "e"%byte else if a =? 20001 then "f"%byte
  else x00.

(** The view [make_sequence()] gives over a store. *)
Definition whole (store : list storage_element.t) : buffer_sequence.t :=
  storage_element_container.make_sequence
    (storage_element_container.mk store (size_t_modulus - 1) 4096).

End Samples.

(** A next layer that replays a script: each read delivers the next
    entry, cut to the size asked for, with its error code; past the end
    of the script it reports an error and no bytes. *)
#[export] Instance replay_stream
    : buffered_read_stream.ReadStream
        (list (list byte * buffered_read_stream.error_code)) := {
  stream_read_some := fun n script =>
    match script with
    | [] => ([], buffered_read_stream.error 2, [])
    | (received, ec) :: script => (take (Z.to_nat n) received, ec, script)
    end
}.
(** * Properties *)

(** ** Machine integers and raw memory *)

Lemma wrap_small x : is_size_t x -> wrap x = x.
Proof. intros H. unfold wrap. apply Z.mod_small. exact H. Qed.

Lemma wrap_range x : is_size_t (wrap x).
Proof. unfold wrap, is_size_t, size_t_modulus. apply Z.mod_pos_bound. lia. Qed.

Lemma read_n_length mem k : forall p, length (read_n mem p k) = k.
Proof. induction k as [|k IH]; intros p; simpl; [reflexivity | now rewrite IH]. Qed.

Lemma read_n_app mem j : forall p k,
  read_n mem p (j + k) = read_n mem p j ++ read_n mem (p + Z.of_nat j) k.
Proof.
  induction j as [|j IH]; intros p k.
  - simpl. now rewrite Z.add_0_r.
  - cbn [Nat.add read_n app]. rewrite IH. do 3 f_equal. lia.
Qed.

Lemma read_n_take mem j k p : (j <= k)%nat -> take j (read_n mem p k) = read_n mem p j.
Proof.
  intros H. replace k with (j + (k - j))%nat by lia.
  rewrite read_n_app, take_app_length'; [reflexivity | now rewrite read_n_length].
Qed.

Lemma read_n_drop mem j k p :
  (j <= k)%nat -> drop j (read_n mem p k) = read_n mem (p + Z.of_nat j) (k - j).
Proof.
  intros H. replace k with (j + (k - j))%nat at 1 by lia.
  rewrite read_n_app, drop_app_length'; [reflexivity | now rewrite read_n_length].
Qed.


Lemma read_n_take_min mem j k p :
  take j (read_n mem p k) = read_n mem p (Nat.min j k).
Proof.
  destruct (Nat.le_ge_cases j k) as [H|H].
  - rewrite Nat.min_l by exact H. now apply read_n_take.
  - rewrite Nat.min_r by exact H. apply take_ge. rewrite read_n_length. exact H.
Qed.

Lemma read_n_drop_min mem j k p :
  drop j (read_n mem p k) = read_n mem (p + Z.of_nat (Nat.min j k)) (k - j).
Proof.
  destruct (Nat.le_ge_cases j k) as [H|H].
  - rewrite Nat.min_l by exact H. now apply read_n_drop.
  - replace (k - j)%nat with O by lia. apply drop_ge. rewrite read_n_length. exact H.
Qed.

(** Two reads agree when they have the same length and, unless empty,
    the same start. *)
Lemma read_n_eq mem p q j k :
  j = k -> (k <> O -> p = q) -> read_n mem p j = read_n mem q k.
Proof.
  intros -> H. destruct k as [|k]; [reflexivity|]. now rewrite H.
Qed.

(** ** buffers_pair.ipp *)

Section BuffersPairProperties.
Import BuffersPair.

Variable mem : memory.

Lemma flatten_slice (a b : buffer) (pos n : nat) :
  take n (drop pos (buffer_bytes mem a ++ buffer_bytes mem b)) =
  read_n mem (data a + Z.of_nat (Nat.min pos (Z.to_nat (size a))))
             (Nat.min n (Z.to_nat (size a) - pos)) ++
  read_n mem (data b + Z.of_nat (Nat.min (pos - Z.to_nat (size a)) (Z.to_nat (size b))))
             (Nat.min (n - (Z.to_nat (size a) - pos))
                      (Z.to_nat (size b) - (pos - Z.to_nat (size a)))).
Proof.
  unfold buffer_bytes.
  rewrite drop_app, take_app, !read_n_drop_min, !read_n_take_min, !read_n_length.
  reflexivity.
Qed.

(** C10.  The sub-range constructor [buffers_pair(p, pos, n)] yields a pair
    whose flattened bytes are those of [p] from offset [pos], at most [n]
    of them (so clamped to the total length of [p]); it is the empty pair
    when [pos] is at or beyond the total length; and each of its two
    regions is empty or lies within one of the two regions of [p]. *)
Theorem sub_range_spec (p : buffers_pair) (pos n : Z) :
  wf p -> is_size_t pos -> is_size_t n ->
  let r := sub_range p pos n in
  flatten mem r = take (Z.to_nat n) (drop (Z.to_nat pos) (flatten mem p))
  /\ (total_size p <= pos -> size (b_0 r) = 0 /\ size (b_1 r) = 0)
  /\ region_ok p (b_0 r) /\ region_ok p (b_1 r).
Proof.
  destruct p as [[d0 s0] [d1 s1]].
  unfold wf, is_size_t, total_size, region_ok, within, flatten, sub_range,
    buffer_advance, sz_sub, wrap, null_buffer; cbn [b_0 b_1 data size].
  intros [H0 H1] Hpos Hn. rewrite flatten_slice. cbn [data size].
  repeat match goal with
  | |- context [Z.leb ?a ?b] => destruct (Z.leb_spec a b)
  | |- context [Z.ltb ?a ?b] => destruct (Z.ltb_spec a b)
  | _ => progress cbn [b_0 b_1 data size fst snd] in *
  | H : context [(?a - ?b) mod size_t_modulus] |- _ =>
      rewrite (Z.mod_small (a - b)) in H by lia
  | |- context [(?a - ?b) mod size_t_modulus] =>
      rewrite (Z.mod_small (a - b)) by lia
  end;
  (split; [| split; [lia | split; lia]]);
  unfold buffer_bytes; cbn [data size];
  repeat match goal with
  | |- context [read_n mem ?p ?k] =>
      lazymatch k with O => fail | _ => idtac end;
      replace k with O by lia; cbn [read_n]
  end;
  rewrite ?app_nil_r, ?app_nil_l;
  first [ reflexivity | apply read_n_eq; lia | f_equal; apply read_n_eq; lia ].
Qed.

End BuffersPairProperties.

(** A pair of two 4-byte regions, narrowed to offset 2, length 5. *)
Lemma sub_range_spec_witness :
  let mem : memory := fun _ => x00 in
  let p := BuffersPair.mk_pair (mk_buffer 100 4) (mk_buffer 200 4) in
  let r := BuffersPair.sub_range p 2 5 in
  BuffersPair.flatten mem r = take 5 (drop 2 (BuffersPair.flatten mem p))
  /\ (BuffersPair.total_size p <= 2 ->
      size (BuffersPair.b_0 r) = 0 /\ size (BuffersPair.b_1 r) = 0)
  /\ BuffersPair.region_ok p (BuffersPair.b_0 r)
  /\ BuffersPair.region_ok p (BuffersPair.b_1 r).
Proof.
  apply (sub_range_spec (fun _ => x00)
           (BuffersPair.mk_pair (mk_buffer 100 4) (mk_buffer 200 4)) 2 5);
    unfold BuffersPair.wf, is_size_t, size_t_modulus; simpl; lia.
Defined.

(** ** storage_element and storage_element_container::consume *)

Section ConsumeProperties.
Import storage_element_container.

Variable mem : memory.

Lemma element_size_wf e :
  storage_element.wf e ->
  storage_element.size e = storage_element.end_used_ e - storage_element.begin_used_ e
  /\ is_size_t (storage_element.size e).
Proof.
  unfold storage_element.wf, storage_element.size, is_size_t.
  intros (H1 & H2 & H3 & H4).
  rewrite wrap_small by (unfold is_size_t; lia). lia.
Qed.

Lemma readable_cons e store :
  readable mem (e :: store) =
  buffer_bytes mem (storage_element.to_buffer e) ++ readable mem store.
Proof. reflexivity. Qed.

Lemma readable_length store :
  Forall storage_element.wf store ->
  Z.of_nat (length (readable mem store)) = readable_size store
  /\ 0 <= readable_size store.
Proof.
  induction 1 as [|e store He _ [IH1 IH2]]; [split; [reflexivity | cbn; lia]|].
  rewrite readable_cons, length_app. cbn [readable_size foldr].
  fold (readable_size store).
  unfold buffer_bytes, storage_element.to_buffer; cbn [size data].
  rewrite read_n_length.
  destruct (element_size_wf e He) as [_ [Hs _]]. lia.
Qed.

(** Consuming part of one block drops the first bytes of its region. *)
Lemma element_consume_bytes e m :
  storage_element.wf e -> 0 <= m <= storage_element.size e ->
  exists e',
    storage_element.consume e m = Some e'
    /\ storage_element.wf e'
    /\ storage_element.size e' = storage_element.size e - m
    /\ buffer_bytes mem (storage_element.to_buffer e') =
       drop (Z.to_nat m) (buffer_bytes mem (storage_element.to_buffer e)).
Proof.
  intros Hwf Hm. destruct (element_size_wf e Hwf) as [Hsz Hr].
  unfold storage_element.consume.
  destruct (Z.leb_spec m (storage_element.size e)); [|lia].
  eexists; split; [reflexivity|].
  assert (Hwf' : storage_element.wf
    (storage_element.mk (storage_element.begin_data_ e) (storage_element.end_data_ e)
       (storage_element.begin_used_ e + m) (storage_element.end_used_ e))).
  { unfold storage_element.wf in *; cbn. lia. }
  split; [exact Hwf'|].
  destruct (element_size_wf _ Hwf') as [Hsz' _]. cbn in Hsz'.
  split; [lia|].
  unfold buffer_bytes, storage_element.to_buffer, storage_element.data; cbn [data size].
  rewrite Hsz'. cbn [storage_element.begin_used_].
  rewrite read_n_drop by lia.
  apply read_n_eq; lia.
Qed.

Lemma consume_loop_spec store :
  Forall storage_element.wf store -> forall n, is_size_t n ->
  exists store' freed k,
    consume_loop n store = Some (store', freed)
    /\ readable mem store' = drop (Z.to_nat n) (readable mem store)
    /\ readable_size store' = readable_size store - Z.min n (readable_size store)
    /\ freed = take k store
    /\ (store' = drop k store
        \/ exists e e' rest m,
             drop k store = e :: rest /\ store' = e' :: rest
             /\ storage_element.consume e m = Some e'
             /\ 0 < m < storage_element.size e).
Proof.
  induction 1 as [|e store He Hst IH]; intros n Hn.
  - exists [], [], O. cbn. rewrite drop_nil.
    split; [reflexivity|]. split; [reflexivity|].
    split; [unfold is_size_t in Hn; lia|].
    split; [reflexivity | now left].
  - destruct (element_size_wf e He) as [Hsz Hr].
    destruct (readable_length store Hst) as [Hlen Hpos].
    assert (Hl : length (buffer_bytes mem (storage_element.to_buffer e)) =
                 Z.to_nat (storage_element.size e)) by apply read_n_length.
    cbn [consume_loop]. destruct (Z.eqb_spec n 0) as [->|Hn0].
    + exists (e :: store), [], O. cbn [Z.to_nat drop take].
      split; [reflexivity|]. split; [reflexivity|]. split; [|split; [reflexivity | now left]].
      destruct (readable_length (e :: store)) as [_ ?]; [now constructor | lia].
    + destruct (Z.leb_spec (storage_element.size e) n) as [Hle|Hlt].
      * assert (Hn' : is_size_t (n - storage_element.size e))
          by (unfold is_size_t in *; lia).
        unfold sz_sub. rewrite (wrap_small _ Hn').
        destruct (IH _ Hn') as (store' & freed & k & -> & Hb & Hs & Hf & Hshape).
        exists store', (e :: freed), (S k). cbn [mbind option_bind].
        split; [reflexivity|]. split; [|split; [|split]].
        -- rewrite Hb, readable_cons, drop_app, Hl.
           rewrite (drop_ge (buffer_bytes mem (storage_element.to_buffer e)))
             by (rewrite Hl; lia).
           cbn [app]. f_equal. unfold is_size_t in *. lia.
        -- rewrite Hs. cbn [readable_size foldr]. fold (readable_size store).
           unfold is_size_t in *. lia.
        -- cbn [take]. now rewrite Hf.
        -- exact Hshape.
      * destruct (element_consume_bytes e n He) as (e' & Hc & _ & Hs' & Hb');
          [unfold is_size_t in *; lia|].
        exists (e' :: store), [], O. rewrite Hc. cbn [mbind option_bind].
        split; [reflexivity|]. split; [|split; [|split]].
        -- rewrite !readable_cons, drop_app, Hb', Hl. f_equal.
           replace (Z.to_nat n - Z.to_nat (storage_element.size e))%nat with O
             by (unfold is_size_t in *; lia).
           reflexivity.
        -- cbn [readable_size foldr]. fold (readable_size store).
           unfold is_size_t in *. lia.
        -- reflexivity.
        -- right. exists e, e', store, n. cbn [drop].
           unfold is_size_t in *. repeat split; [exact Hc | lia | lia].
Qed.

End ConsumeProperties.

(** ** flat_static_buffer_base *)

Section FlatStaticProperties.
Local Abbreviation region_size := size (only parsing).
Import flat_static_buffer_base.

Lemma flat_sizes b :
  wf b ->
  size b = out_ b - in_ b /\ max_size b = end_ b - begin_ b
  /\ dist (out_ b) (end_ b) = end_ b - out_ b.
Proof.
  unfold wf, size, max_size, dist. intros (H1 & H2 & H3 & H4).
  rewrite !wrap_small by (unfold is_size_t; lia). lia.
Qed.

Lemma flat_consume_spec mem b n :
  wf b -> is_size_t n ->
  readable mem (consume n b) = drop (Z.to_nat n) (readable mem b)
  /\ size (consume n b) = size b - Z.min n (size b).
Proof.
  intros Hwf Hn. destruct (flat_sizes b Hwf) as (Hs & _ & _).
  pose proof Hwf as (H1 & H2 & H3 & H4). unfold is_size_t in Hn.
  unfold consume. destruct (Z.leb_spec (size b) n) as [Hle|Hlt].
  - assert (Hwf' : wf (mk (begin_ b) (begin_ b) (begin_ b) (last_ b) (end_ b)))
      by (unfold wf; cbn; lia).
    destruct (flat_sizes _ Hwf') as (Hs' & _ & _). cbn in Hs'.
    split; [|lia].
    unfold readable, buffer_bytes; cbn [data region_size]. rewrite Hs'.
    replace (begin_ b - begin_ b) with 0 by lia.
    rewrite drop_ge by (rewrite read_n_length; lia). reflexivity.
  - assert (Hwf' : wf (mk (begin_ b) (in_ b + n) (out_ b) (last_ b) (end_ b)))
      by (unfold wf; cbn; lia).
    destruct (flat_sizes _ Hwf') as (Hs' & _ & _). cbn in Hs'.
    split; [|lia].
    unfold readable, buffer_bytes; cbn [data region_size in_]. rewrite Hs'.
    rewrite read_n_drop by lia. apply read_n_eq; lia.
Qed.

(** [prepare] of the flat static buffer throws exactly when the request
    does not fit under [max_size], and then leaves buffer and memory as
    they were. *)
Lemma flat_prepare_spec mem b n :
  wf b -> is_size_t n ->
  (throws (prepare n (b, mem)) = true <-> max_size b < size b + n)
  /\ (throws (prepare n (b, mem)) = true ->
      final_state (prepare n (b, mem)) = (b, mem)).
Proof.
  intros Hwf Hn. destruct (flat_sizes b Hwf) as (Hs & Hm & Hd).
  pose proof Hwf as (H1 & H2 & H3 & H4). unfold is_size_t in Hn.
  unfold prepare, capacity, sz_sub. rewrite Hd, Hm, Hs.
  rewrite (wrap_small (end_ b - begin_ b - (out_ b - in_ b)))
    by (unfold is_size_t; lia).
  destruct (Z.leb_spec n (end_ b - out_ b)); cbn [throws final_state].
  - split; [split; [discriminate | lia] | discriminate].
  - destruct (Z.ltb_spec (end_ b - begin_ b - (out_ b - in_ b)) n);
      cbn [throws final_state].
    + split; [split; [lia | reflexivity] | reflexivity].
    + split; [split; [discriminate | lia] | discriminate].
Qed.

End FlatStaticProperties.

(** ** storage_element_container::consume and flat_static_buffer_base::consume *)

(** C6.  [consume(n)] never fails and removes exactly [min(n, size())] bytes
    from the front of the readable run.  For the block container it frees
    precisely the leading blocks that are consumed whole: the blocks kept
    are the remaining ones, the first of them possibly shortened by fewer
    bytes than it holds.  For the flat static buffer the readable bytes lose
    their first [min(n, size())] bytes.  Consuming [size()] bytes or more
    leaves no readable byte. *)
Theorem consume_spec (mem : memory) (c : storage_element_container.t)
    (b : flat_static_buffer_base.t) (n : Z) :
  Forall storage_element.wf (storage_element_container.store_ c) ->
  flat_static_buffer_base.wf b ->
  is_size_t n ->
  (exists c' freed k,
     storage_element_container.consume n c = Some (c', freed)
     /\ storage_element_container.readable mem (storage_element_container.store_ c') =
        drop (Z.to_nat n)
          (storage_element_container.readable mem (storage_element_container.store_ c))
     /\ storage_element_container.readable_size (storage_element_container.store_ c') =
        storage_element_container.readable_size (storage_element_container.store_ c)
        - Z.min n (storage_element_container.readable_size
                     (storage_element_container.store_ c))
     /\ freed = take k (storage_element_container.store_ c)
     /\ (storage_element_container.store_ c' =
           drop k (storage_element_container.store_ c)
         \/ exists e e' rest m,
              drop k (storage_element_container.store_ c) = e :: rest
              /\ storage_element_container.store_ c' = e' :: rest
              /\ storage_element.consume e m = Some e'
              /\ 0 < m < storage_element.size e)
     /\ (storage_element_container.readable_size (storage_element_container.store_ c) <= n ->
         storage_element_container.readable mem (storage_element_container.store_ c') = []))
  /\ flat_static_buffer_base.readable mem (flat_static_buffer_base.consume n b) =
     drop (Z.to_nat n) (flat_static_buffer_base.readable mem b)
  /\ flat_static_buffer_base.size (flat_static_buffer_base.consume n b) =
     flat_static_buffer_base.size b - Z.min n (flat_static_buffer_base.size b)
  /\ (flat_static_buffer_base.size b <= n ->
      flat_static_buffer_base.readable mem (flat_static_buffer_base.consume n b) = []).
Proof.
  intros Hc Hb Hn. split.
  - destruct (consume_loop_spec mem _ Hc n Hn)
      as (store' & freed & k & Hrun & Hbytes & Hsize & Hfreed & Hshape).
    exists (storage_element_container.mk store'
              (storage_element_container.limit_ c)
              (storage_element_container.min_block_size_ c)), freed, k.
    unfold storage_element_container.consume. rewrite Hrun.
    cbn [mbind option_bind storage_element_container.store_].
    repeat split; try assumption.
    intros Hall. rewrite Hbytes. apply drop_ge.
    destruct (readable_length mem _ Hc) as [Hlen _]. lia.
  - destruct (flat_consume_spec mem b n Hb Hn) as [Hbytes Hsize].
    repeat split; try assumption.
    intros Hall. rewrite Hbytes. apply drop_ge.
    unfold flat_static_buffer_base.readable, buffer_bytes; cbn [data size].
    rewrite read_n_length. lia.
Qed.

(** A container of two blocks holding 2 and 3 readable bytes and a flat
    buffer holding 4, each asked to consume 3 bytes. *)
Lemma consume_spec_witness :
  let mem : memory := fun _ => x00 in
  let c := storage_element_container.mk
             [storage_element.mk 1000 5096 1000 1002;
              storage_element.mk 9000 13096 9000 9003] 100 4096 in
  let b := flat_static_buffer_base.mk 500 502 506 506 516 in
  (exists c' freed,
     storage_element_container.consume 3 c = Some (c', freed)
     /\ storage_element_container.readable mem (storage_element_container.store_ c') =
        drop 3 (storage_element_container.readable mem
                  (storage_element_container.store_ c)))
  /\ flat_static_buffer_base.size (flat_static_buffer_base.consume 3 b) =
     flat_static_buffer_base.size b - Z.min 3 (flat_static_buffer_base.size b).
Proof.
  intros mem c b.
  destruct (consume_spec mem c b 3) as [(c' & freed & k & H1 & H2 & _) (_ & H3 & _)].
  - repeat constructor; unfold storage_element.wf, size_t_modulus; cbn; lia.
  - unfold flat_static_buffer_base.wf, size_t_modulus; cbn; lia.
  - unfold is_size_t, size_t_modulus; lia.
  - split; [exists c', freed; split; [exact H1 | exact H2] | exact H3].
Defined.

(** ** dynamic_buffer_handle over a DynamicBuffer_v2 *)

Section HandleProperties.
Import dynamic_buffer_handle.

(** With no prepared bytes outstanding and a request that does not wrap,
    the handle throws exactly when the request exceeds [max_size() - size()]
    and is unchanged by the throw. *)
Lemma handle_prepare_clean (impl : impl_class vector_buffer.t) (n : Z) :
  prepared impl = 0 -> is_size_t n ->
  vector_buffer.size (dyn_buf impl) + n < size_t_modulus ->
  (throws (prepare n impl) = true <-> max_size impl < size impl + n)
  /\ (throws (prepare n impl) = true -> final_state (prepare n impl) = impl).
Proof.
  destruct impl as [[bs mx] p]. cbn [prepared dyn_buf]. intros -> Hn Hfit.
  unfold is_size_t, vector_buffer.size in *; cbn [vector_buffer.bytes] in Hfit.
  unfold prepare, size, max_size, sz_add, sz_sub;
    cbn [v2_size v2_max_size v2_grow vector_buffer_v2 dyn_buf prepared].
  unfold vector_buffer.grow, vector_buffer.size;
    cbn [vector_buffer.bytes vector_buffer.ceiling].
  rewrite Z.sub_0_r, !wrap_small by (unfold is_size_t; lia).
  destruct (Z.ltb_spec mx (Z.of_nat (length bs) + n)); cbn [throws final_state].
  - split; [split; [lia | reflexivity] | reflexivity].
  - split; [split; [discriminate | lia] | discriminate].
Qed.

(** C1, evaluated on the handle.  (a) After [prepare(5)] on an empty buffer
    with [max_size() = 8] the handle reports [size() = 0], so
    [size() + 5] does not exceed [max_size()], yet a second [prepare(5)]
    throws [std::length_error]: the check adds the request to the size of
    the underlying buffer, which still contains the 5 bytes of the first
    request.  (b) On a buffer holding one byte, [prepare(2^64 - 1)] throws,
    but only from [grow], after [prepared] has been overwritten: the handle
    that reported [size() = 1] before the failed call reports [size() = 2]
    after it. *)
Theorem handle_prepare_divergence :
  (let impl := final_state (prepare 5 (make (vector_buffer.mk [] 8))) in
   throws (prepare 5 (make (vector_buffer.mk [] 8))) = false
   /\ size impl = 0 /\ max_size impl = 8
   /\ throws (prepare 5 impl) = true)
  /\
  (let impl := make (vector_buffer.mk [x01] 8) in
   throws (prepare (2 ^ 64 - 1) impl) = true
   /\ size impl = 1
   /\ size (final_state (prepare (2 ^ 64 - 1) impl)) = 2).
Proof. vm_compute. repeat split; reflexivity. Qed.

End HandleProperties.

(** ** discount, buffer_sequence_iterator and buffer_sequence *)

Section ViewProperties.
Import buffer_sequence_iterator buffer_sequence.







Lemma buffer_size_loop_total store k : forall it i total,
  f_ it = slot i -> 0 <= i -> i + Z.of_nat k <= Z.of_nat (length store) ->
  exists r, buffer_size_loop store it k total = Some r
            /\ (k <> O -> is_size_t r) /\ (k = O -> r = total).
Proof.
  induction k as [|k IH]; intros it i total Hf Hi Hk.
  - exists total. cbn. split; [reflexivity|]. split; [congruence | reflexivity].
  - cbn [buffer_size_loop]. unfold deref. rewrite Hf. cbn [load].
    unfold element_at. destruct (Z.leb_spec 0 i); [|lia].
    destruct (lookup_lt_is_Some_2 store (Z.to_nat i)) as [e He]; [lia|].
    rewrite He. cbn [mbind option_bind].
    destruct (IH (advance it 1) (i + 1)
                (sz_add total (size (trim it (storage_element.to_buffer e)))))
      as (r & Hr & Hrange & Hzero); [now cbn; rewrite Hf | lia | lia |].
    exists r. split; [exact Hr|]. split; [|discriminate].
    intros _. destruct k; [rewrite Hzero by reflexivity; apply wrap_range | now apply Hrange].
Qed.

Lemma buffer_size_total store v :
  in_store store v ->
  exists total, buffer_size store v = Some total /\ 0 <= total.
Proof.
  intros [[Hb He]|(i & j & Hb & He & Hij & Hj)]; unfold buffer_size, count.
  { rewrite Hb, He. exists 0. split; [reflexivity | lia]. }
  rewrite Hb, He. cbn [distance].
  destruct (Z.ltb_spec (j - i) 0); [lia|].
  destruct (buffer_size_loop_total store (Z.to_nat (j - i)) (begin_ v) i 0 Hb)
    as (r & Hr & Hrange & Hzero); [lia | lia |].
  exists r. split; [exact Hr|].
  destruct (Z.to_nat (j - i)) eqn:E; [rewrite Hzero; [lia | reflexivity]|].
  apply Hrange. discriminate.
Qed.

(** [adjust(pos, 0)], and [adjust(pos, limit)] with [pos] at or beyond the
    total length of the view, return a view without elements. *)
Lemma adjust_empty store v pos limit :
  in_store store v -> is_size_t pos -> is_size_t limit ->
  limit = 0 \/ (exists total, buffer_size store v = Some total /\ total <= pos) ->
  exists v', adjust store v pos limit = Some v' /\ empty v'.
Proof.
  intros Hin Hpos Hlimit Hcase. unfold adjust, empty.
  destruct (eqb (begin_ v) (end_ v)) eqn:Heq.
  - exists v. split; [reflexivity|]. unfold count.
    unfold eqb in Heq. destruct (f_ (begin_ v)), (f_ (end_ v)); cbn in *;
      try reflexivity; try discriminate.
    apply Z.eqb_eq in Heq. lia.
  - destruct (buffer_size_total store v Hin) as (total & Ht & Hnn).
    rewrite Ht. cbn [mbind option_bind].
    assert (Hz : Z.min limit (if pos <? total then sz_sub total pos else 0) = 0).
    { unfold is_size_t in *. destruct Hcase as [->|(t & Ht' & Hle)].
      - destruct (pos <? total); [|reflexivity].
        pose proof (wrap_range (total - pos)) as Hw. unfold is_size_t, sz_sub in *. lia.
      - rewrite Ht in Ht'. injection Ht' as <-.
        destruct (Z.ltb_spec pos total); lia. }
    rewrite Hz. cbn. eexists; split; reflexivity.
Qed.

End ViewProperties.

(** C3, evaluated on a view of two blocks of 2 readable bytes each.  The
    view has 4 bytes; [adjust(1, 100)] asks for more than the 3 bytes that
    remain after offset 1.  The resulting view is not 3 bytes long: its
    first region starts 3 bytes into the 2-byte block with length
    [2^64 - 1], its second region is the whole second block, and
    [buffer_size] of it is 1. *)
Theorem adjust_limit_beyond_remaining :
  let store := Samples.two_blocks in
  let v := Samples.whole store in
  buffer_sequence.buffer_size store v = Some 4
  /\ match buffer_sequence.adjust store v 1 100 with
     | Some v' =>
         buffer_sequence.regions store v' =
           Some [mk_buffer 1003 (2 ^ 64 - 1); mk_buffer 9000 2]
         /\ buffer_sequence.buffer_size store v' = Some 1
     | None => False
     end.
Proof. vm_compute. repeat split; reflexivity. Qed.

(** C4, evaluated on the same two blocks, which read "ab" and "cd".
    [adjust(0, 1)] followed by [adjust(0, 3)] gives a view that reads "abd";
    the single [adjust] with offset [0 + 0] and length
    [min(3, 1 - 0) = 1] gives a view that reads "bcd". *)
Theorem adjust_twice_differs :
  let store := Samples.two_blocks in
  let v := Samples.whole store in
  match buffer_sequence.adjust store v 0 1 with
  | Some v1 =>
      match buffer_sequence.adjust store v1 0 3,
            buffer_sequence.adjust store v (0 + 0) (Z.min 3 (Z.max 0 (1 - 0))) with
      | Some v12, Some v' =>
          buffer_sequence.flatten Samples.letters store v12 =
            Some ["a"%byte; "b"%byte; "d"%byte]
          /\ buffer_sequence.flatten Samples.letters store v' =
             Some ["b"%byte; "c"%byte; "d"%byte]
      | _, _ => False
      end
  | None => False
  end.
Proof. vm_compute. split; reflexivity. Qed.

(** C5, evaluated on a view of three blocks of 2 readable bytes each after
    [adjust(0, 3)].  The view still has three positions; the final discount
    of 1 byte is applied at position 1, an interior position, where the
    region returned is 1 byte long and starts 1 byte into the block; the
    last position, 2, returns its block undiscounted. *)
Theorem interior_block_discounted :
  let store := Samples.three_blocks in
  match buffer_sequence.adjust store (Samples.whole store) 0 3 with
  | Some v =>
      buffer_sequence.count v = 3
      /\ buffer_sequence_iterator.index store (buffer_sequence.begin_ v) 1 =
         Some (mk_buffer 9001 1)
      /\ (storage_element.to_buffer <$> store !! 1%nat) = Some (mk_buffer 9000 2)
      /\ buffer_sequence_iterator.index store (buffer_sequence.begin_ v) 2 =
         Some (mk_buffer 20000 2)
  | None => False
  end.
Proof. vm_compute. repeat split; reflexivity. Qed.

(** ** storage_element_container::add *)

Section AddProperties.
Import storage_element_container.

(** The first allocation: on an empty container [add] creates one block
    of [min_block_size_] bytes, 4096 unless the request is larger, in
    which case the request size. *)
Lemma add_first_block g p limit n :
  is_size_t n ->
  add g p n (make limit) =
  Some (mk [storage_element.mk p (p + Z.max 4096 n) p (p + n)] limit (Z.max 4096 n), g).
Proof.
  unfold is_size_t, size_t_modulus. intros Hn.
  unfold add, make, round_up; cbn [store_ length Nat.eqb negb min_block_size_ limit_ app].
  unfold storage_element.acquire, storage_element.make, storage_element.available;
    cbn [storage_element.end_data_ storage_element.end_used_
         storage_element.begin_data_ storage_element.begin_used_].
  destruct (Z.ltb_spec 4096 n).
  - rewrite Z.max_r by lia.
    replace (p + n - p) with n by lia.
    rewrite wrap_small by (unfold is_size_t, size_t_modulus; lia).
    rewrite Z.leb_refl. reflexivity.
  - rewrite Z.max_l by lia.
    replace (p + 4096 - p) with 4096 by lia.
    rewrite wrap_small by (unfold is_size_t, size_t_modulus; lia).
    destruct (Z.leb_spec n 4096); [reflexivity | lia].
Qed.

(** Whatever the request, [add] leaves the blocks already in the vector as
    they are: when it returns, the vector is the old one, or the old one
    with one new block appended.  No used region of an existing block grows. *)
Lemma add_keeps_existing_blocks past_the_end p n c :
  match add past_the_end p n c with
  | Some (c', _) =>
      store_ c' = store_ c \/ exists e, store_ c' = store_ c ++ [e]
  | None => True
  end.
Proof.
  unfold add.
  assert (Hnew : match
      (element ← storage_element.acquire
         (storage_element.make p
            (if min_block_size_ c <? n then round_up n else min_block_size_ c)) n;
       Some (mk (store_ c ++ [element]) (limit_ c)
               (if min_block_size_ c <? n then round_up n else min_block_size_ c),
             past_the_end))
    with
    | Some (c', _) => store_ c' = store_ c \/ exists e, store_ c' = store_ c ++ [e]
    | None => True
    end).
  { destruct (storage_element.acquire _ n) as [element|]; cbn; [|exact I].
    right. now exists element. }
  destruct (negb (length (store_ c) =? 0)%nat); [|exact Hnew].
  destruct (storage_element.available past_the_end <=? n); [|exact Hnew].
  destruct (storage_element.acquire past_the_end n); cbn; [now left | exact I].
Qed.

(** C7, evaluated on the container after a first [add(10)]: one block of
    4096 bytes, 10 used, 4086 spare.  Whatever the slot past the end of
    the vector holds, and whatever address the allocator returns, a second
    [add(10)] does not take the 10 bytes from that spare capacity: it
    stops at the assertion of [acquire], or returns with the vector
    unchanged after writing to the slot past the end, or appends a second
    block of 4096 bytes. *)
Theorem add_second_request (past_the_end : storage_element.t) (p : Z) :
  let first := storage_element.mk 1000 5096 1000 1010 in
  let c := mk [first] (size_t_modulus - 1) 4096 in
  add past_the_end 1000 10 (make (size_t_modulus - 1)) = Some (c, past_the_end)
  /\ storage_element.available first = 4086
  /\ (add past_the_end p 10 c = None
      \/ (exists slot', add past_the_end p 10 c = Some (c, slot'))
      \/ add past_the_end p 10 c =
         Some (mk [first; storage_element.mk p (p + 4096) p (p + 10)]
                  (size_t_modulus - 1) 4096, past_the_end)).
Proof.
  intros first c. split; [|split].
  - rewrite add_first_block by (unfold is_size_t, size_t_modulus; lia). reflexivity.
  - reflexivity.
  - unfold add; cbn [store_ c length Nat.eqb negb].
    destruct (storage_element.available past_the_end <=? 10).
    + destruct (storage_element.acquire past_the_end 10) as [slot'|].
      * right; left. exists slot'. reflexivity.
      * left. reflexivity.
    + right; right. unfold round_up; cbn [min_block_size_ c limit_ store_].
      unfold storage_element.acquire, storage_element.make, storage_element.available;
        cbn [storage_element.end_data_ storage_element.end_used_
             storage_element.begin_data_ storage_element.begin_used_].
      change (4096 <? 10) with false. cbv iota.
      replace (p + 4096 - p) with 4096 by lia. reflexivity.
Qed.

End AddProperties.

(** ** socks5_op *)

Section SocksProperties.
Import socks.

Lemma completions_app (t1 t2 : list action) :
  completions (t1 ++ t2) = (completions t1 + completions t2)%nat.
Proof. unfold completions. now rewrite filter_app, length_app. Qed.

(** Every entry into [operator()] ends in [complete_now]: it is the one
    statement after the [reenter] block. *)
Lemma invoke_completes_once op ec n :
  completions (snd (invoke op ec n)) = 1%nat.
Proof.
  unfold invoke.
  destruct (coro_ op); try reflexivity;
    destruct (failed ec) eqn:Hec; try reflexivity.
  destruct (validate_authentication_method op ec) as [m ec'].
  destruct (failed ec'); [reflexivity|].
  destruct (Byte.eqb m SOCKS5_AUTH_NONE); [reflexivity|].
  destruct (Byte.eqb m SOCKS5_AUTH); reflexivity.
Qed.

Lemma resume_completes op c script :
  (1 <= completions (resume op (c :: script)))%nat.
Proof.
  cbn [resume].
  pose proof (invoke_completes_once (deliver op c) (c_ec c)
                (Z.of_nat (length (c_received c)))) as H.
  destruct (invoke (deliver op c) (c_ec c) (Z.of_nat (length (c_received c))))
    as [op' actions].
  cbn [snd] in H. rewrite completions_app, H. lia.
Qed.

(** C2, evaluated on every run.  Before any completion has been delivered
    the operation has started the write of the greeting and has already
    invoked the completion handler, with success, while that write is
    outstanding; and once the write completes, with or without an error,
    the handler is invoked again, so a run that gets that far invokes it
    at least twice. *)
Theorem handler_invoked_on_every_entry
    (hostname : list byte) (port : Z) (username password : list byte)
    (use_hostname : bool) (c : completion) (script : list completion) :
  let op := make hostname port username password use_hostname in
  run op [] = [async_write [x05; x02; x00; x02]; complete_now success]
  /\ (exists rest,
        run op (c :: script) =
        async_write [x05; x02; x00; x02] :: complete_now success :: rest)
  /\ (2 <= completions (run op (c :: script)))%nat.
Proof.
  intros op.
  assert (Hrun : forall s, run op s =
            [async_write [x05; x02; x00; x02]; complete_now success] ++
            resume (set_coro (build_method_selection_message op) after_write_greeting) s)
    by reflexivity.
  split; [reflexivity|]. split.
  - eexists. rewrite Hrun. reflexivity.
  - rewrite Hrun, completions_app.
    pose proof (resume_completes
      (set_coro (build_method_selection_message op) after_write_greeting) c script) as H.
    assert (H1 : completions [async_write [x05; x02; x00; x02]; complete_now success] = 1%nat)
      by reflexivity.
    lia.
Qed.

(** C8, evaluated on a client without credentials whose server selects
    username/password.  The write of the greeting succeeds and the reply
    [05 02] is read.  The operation then starts the username/password
    sub-negotiation with the empty user name and password and invokes the
    completion handler with success.  When the sub-negotiation completes
    with [ec], the handler receives [ec] if it is an error and
    [socks_not_implemented] otherwise. *)
Theorem empty_credentials_not_rejected
    (hostname : list byte) (port : Z) (use_hostname : bool) (ec : error_code) :
  let op := make hostname port [] [] use_hostname in
  let written := mk_completion success [] in
  let reply := mk_completion success [x05; x02] in
  run op [written; reply] =
    [async_write [x05; x02; x00; x02]; complete_now success;
     async_read 2; complete_now success;
     async_socks5_auth_username_password [] []; complete_now success]
  /\ run op [written; reply; mk_completion ec []] =
    [async_write [x05; x02; x00; x02]; complete_now success;
     async_read 2; complete_now success;
     async_socks5_auth_username_password [] []; complete_now success;
     complete_now (if failed ec then ec else socks_not_implemented)].
Proof.
  intros op written reply. split; [reflexivity|].
  destruct ec; reflexivity.
Qed.

(** The greeting of a client without credentials does not follow the
    credentials: it advertises username/password, as one of two methods. *)
Lemma greeting_without_credentials :
  ~ greeting_follows_credentials (make [] 1080 [] [] false).
Proof.
  intros (_ & _ & Honly).
  assert (Hno : ~ credentials_supplied (make [] 1080 [] [] false))
    by (intros H; now apply H).
  specialize (Honly Hno). discriminate Honly.
Qed.

(** C9, as the code has it.  Whatever the credentials, the greeting
    written to the transport is [05 02 00 02]: it advertises two methods,
    no-auth and username/password. *)
Theorem greeting_advertises_both_methods
    (hostname : list byte) (port : Z) (username password : list byte)
    (use_hostname : bool) :
  let op := make hostname port username password use_hostname in
  run op [] = [async_write [x05; x02; x00; x02]; complete_now success]
  /\ greeting op = [x05; x02; x00; x02]
  /\ advertised_methods (greeting op) = [SOCKS5_AUTH_NONE; SOCKS5_AUTH].
Proof. intros op. repeat split; reflexivity. Qed.

End SocksProperties.

(** ** flat_static_buffer_base: prepare, data_impl, shrink_impl, clear *)

Section FlatStaticMore.
Import flat_static_buffer_base.

Variable mem : memory.

(** After [memmove] the destination reads what the source read before,
    also when the two ranges overlap. *)
Lemma read_n_memmove dst src len k : forall j,
  0 <= j -> j + Z.of_nat k <= len ->
  read_n (memmove mem dst src len) (dst + j) k = read_n mem (src + j) k.
Proof.
  induction k as [|k IH]; intros j Hj Hk; [reflexivity|].
  cbn [read_n]. f_equal.
  - unfold memmove.
    destruct (Z.leb_spec dst (dst + j)); [|lia].
    destruct (Z.ltb_spec (dst + j) (dst + len)); [|lia].
    cbn. f_equal. lia.
  - replace (dst + j + 1) with (dst + (j + 1)) by lia.
    replace (src + j + 1) with (src + (j + 1)) by lia.
    apply IH; lia.
Qed.

(** A [prepare] that fits returns [n] writable bytes directly after the
    readable ones, inside the array, and the readable bytes read as
    before, also when they had to be moved to the front. *)
Lemma flat_prepare_success b n :
  wf b -> is_size_t n -> size b + n <= max_size b ->
  exists w b' mem',
    prepare n (b, mem) = Returns w (b', mem')
    /\ wf b'
    /\ readable mem' b' = readable mem b
    /\ w = mk_buffer (out_ b') n
    /\ last_ b' = out_ b' + n /\ last_ b' <= end_ b'
    /\ size b' = size b /\ max_size b' = max_size b.
Proof.
  intros Hwf Hn Hfit. destruct (flat_sizes b Hwf) as (Hs & Hm & Hd).
  pose proof Hwf as (H1 & H2 & H3 & H4). unfold is_size_t in Hn.
  unfold prepare, capacity, sz_sub. rewrite Hd, Hm, Hs.
  rewrite (wrap_small (end_ b - begin_ b - (out_ b - in_ b)))
    by (unfold is_size_t; lia).
  destruct (Z.leb_spec n (end_ b - out_ b)).
  - do 3 eexists. split; [reflexivity|].
    assert (Hwf' : wf (mk (begin_ b) (in_ b) (out_ b) (out_ b + n) (end_ b)))
      by (unfold wf; cbn; lia).
    destruct (flat_sizes _ Hwf') as (Hs' & Hm' & _). cbn in Hs', Hm'.
    split; [exact Hwf'|]. split.
    { unfold readable. rewrite Hs', Hs. reflexivity. }
    cbn [out_ last_ end_]. repeat split; lia.
  - destruct (Z.ltb_spec (end_ b - begin_ b - (out_ b - in_ b)) n); [lia|].
    do 3 eexists. split; [reflexivity|].
    assert (Hwf' : wf (mk (begin_ b) (begin_ b) (begin_ b + (out_ b - in_ b))
                          (begin_ b + (out_ b - in_ b) + n) (end_ b)))
      by (unfold wf; cbn; lia).
    destruct (flat_sizes _ Hwf') as (Hs' & Hm' & _). cbn in Hs', Hm'.
    split; [exact Hwf'|]. split.
    { unfold readable. rewrite Hs', Hs. unfold buffer_bytes; cbn [buf_data buf_size in_].
      replace (begin_ b + (out_ b - in_ b) - begin_ b) with (out_ b - in_ b) by lia.
      destruct (Z.ltb_spec 0 (out_ b - in_ b)) as [Hpos|Hzero].
      - pose proof (read_n_memmove (begin_ b) (in_ b) (out_ b - in_ b)
                      (Z.to_nat (out_ b - in_ b)) 0) as Hmv.
        rewrite !Z.add_0_r in Hmv. apply Hmv; lia.
      - replace (Z.to_nat (out_ b - in_ b)) with O by lia. reflexivity. }
    cbn [out_ last_ end_]. repeat split; lia.
Qed.

(** [data_impl(pos, n)] designates the readable bytes from offset [pos],
    at most [n] of them. *)
Lemma flat_data_impl_slice b pos n :
  wf b -> is_size_t pos -> is_size_t n ->
  buffer_bytes mem (views.data_impl pos n b) =
  take (Z.to_nat n) (drop (Z.to_nat pos) (readable mem b))
  /\ within (views.data_impl pos n b) (views.data b).
Proof.
  intros Hwf Hpos Hn. destruct (flat_sizes b Hwf) as (Hs & _ & _).
  pose proof Hwf as (H1 & H2 & H3 & H4). unfold is_size_t in *.
  assert (Hd : dist (in_ b) (out_ b) = out_ b - in_ b)
    by (unfold dist; apply wrap_small; unfold is_size_t; lia).
  unfold views.data_impl, views.data, readable, buffer_advance, within, buffer_bytes.
  cbn [buf_data buf_size]. rewrite Hd, Hs.
  rewrite read_n_drop_min, read_n_take_min.
  destruct (Z.ltb_spec (Z.min pos (out_ b - in_ b)) (out_ b - in_ b));
    cbn [buf_data buf_size]; (split; [apply read_n_eq; lia | lia]).
Qed.

(** [shrink_impl(n)] does not throw; it drops the prepared bytes and the
    last [min(n, size())] readable bytes, and keeps the others. *)
Lemma flat_shrink_impl_spec b n :
  wf b -> is_size_t n ->
  exists b',
    shrink_impl n (b, mem) = Returns tt (b', mem)
    /\ wf b'
    /\ readable mem b' =
       take (Z.to_nat (size b - Z.min n (size b))) (readable mem b)
    /\ size b' = size b - Z.min n (size b)
    /\ last_ b' = out_ b.
Proof.
  intros Hwf Hn. destruct (flat_sizes b Hwf) as (Hs & Hm & Hd).
  pose proof Hwf as (H1 & H2 & H3 & H4). unfold is_size_t in Hn.
  unfold shrink_impl, prepare. rewrite Hd.
  destruct (Z.leb_spec 0 (end_ b - out_ b)); [|lia].
  assert (Hs0 : size (mk (begin_ b) (in_ b) (out_ b) (out_ b + 0) (end_ b)) = size b)
    by reflexivity.
  rewrite Hs0. eexists. split; [reflexivity|].
  cbn [begin_ in_ out_ last_ end_].
  assert (Hwf' : wf (mk (begin_ b) (in_ b) (out_ b - Z.min (size b) n)
                        (out_ b + 0) (end_ b)))
    by (unfold wf; cbn; lia).
  destruct (flat_sizes _ Hwf') as (Hs' & _ & _). cbn in Hs'.
  split; [exact Hwf'|]. split; [|split; [|cbn; lia]].
  - unfold readable, buffer_bytes. cbn [buf_data buf_size in_]. rewrite Hs'.
    rewrite read_n_take by lia. apply read_n_eq; lia.
  - lia.
Qed.

(** [clear()] empties the buffer and keeps its capacity: afterwards
    [prepare(n)] throws exactly when [n] exceeds the capacity. *)
Lemma flat_clear_spec b n :
  wf b -> is_size_t n ->
  size (clear b) = 0 /\ capacity (clear b) = capacity b
  /\ readable mem (clear b) = []
  /\ (throws (prepare n (clear b, mem)) = true <-> capacity b < n).
Proof.
  intros Hwf Hn. pose proof Hwf as (H1 & H2 & H3 & H4).
  assert (Hwf' : wf (clear b)) by (unfold wf, clear; cbn; lia).
  destruct (flat_sizes _ Hwf') as (Hs' & Hm' & _). cbn in Hs', Hm'.
  destruct (flat_sizes _ Hwf) as (_ & Hm & _).
  assert (Hz : size (clear b) = 0) by lia.
  split; [exact Hz|]. split; [unfold capacity; lia|]. split.
  - unfold readable. rewrite Hz. reflexivity.
  - destruct (flat_prepare_spec mem (clear b) n Hwf' Hn) as [Hiff _].
    rewrite Hiff, Hz. unfold capacity. lia.
Qed.

(** What [prepare(n)] does, in full: when [size() + n] exceeds
    [max_size()] it throws [std::length_error] and changes nothing;
    otherwise it returns [n] writable bytes that follow the readable ones
    and end inside the array, and the readable bytes, moved to the front
    of the array if need be, read as before. *)
Lemma flat_prepare_outcome b n :
  wf b -> is_size_t n ->
  match prepare n (b, mem) with
  | Throws_length_error s => max_size b < size b + n /\ s = (b, mem)
  | Returns w (b', mem') =>
      size b + n <= max_size b
      /\ wf b'
      /\ readable mem' b' = readable mem b
      /\ w = mk_buffer (out_ b') n
      /\ last_ b' = out_ b' + n /\ last_ b' <= end_ b'
      /\ size b' = size b /\ max_size b' = max_size b
  end.
Proof.
  intros Hwf Hn.
  destruct (flat_prepare_spec mem b n Hwf Hn) as [Hiff Hsame].
  destruct (Z_lt_le_dec (max_size b) (size b + n)) as [Hbig|Hfit].
  - pose proof (proj2 Hiff Hbig) as Hthrows. specialize (Hsame Hthrows).
    destruct (prepare n (b, mem)) as [w s|s]; cbn [throws final_state] in *;
      [discriminate | now split].
  - destruct (flat_prepare_success b n Hwf Hn Hfit)
      as (w & b' & mem' & -> & Hrest).
    split; [exact Hfit | exact Hrest].
Qed.

(** [reset(p, n)] gives an empty buffer over the [n] bytes at [p]: its
    capacity is [n], and [prepare(m)] on it throws exactly when [m]
    exceeds [n]. *)
Lemma flat_reset_spec p n m :
  is_size_t n -> is_size_t m ->
  wf (reset p n)
  /\ size (reset p n) = 0 /\ capacity (reset p n) = n
  /\ readable mem (reset p n) = []
  /\ (throws (prepare m (reset p n, mem)) = true <-> n < m).
Proof.
  intros Hn Hm. unfold is_size_t in Hn.
  assert (Hwf : wf (reset p n)) by (unfold wf, reset; cbn; lia).
  destruct (flat_sizes _ Hwf) as (Hs & Hmx & _). cbn in Hs, Hmx.
  assert (Hz : size (reset p n) = 0) by lia.
  split; [exact Hwf|]. split; [exact Hz|]. split; [unfold capacity; lia|]. split.
  - unfold readable. rewrite Hz. reflexivity.
  - destruct (flat_prepare_spec mem (reset p n) m Hwf Hm) as [Hiff _].
    rewrite Hiff, Hz. lia.
Qed.

End FlatStaticMore.

(** ** storage_element: acquire, consume, clear *)

Section BlockAccounting.

Variable mem : memory.

Lemma element_sizes e :
  storage_element.wf e ->
  storage_element.size e = storage_element.end_used_ e - storage_element.begin_used_ e
  /\ storage_element.available e = storage_element.end_data_ e - storage_element.end_used_ e
  /\ storage_element.capacity e = storage_element.end_data_ e - storage_element.begin_data_ e.
Proof.
  unfold storage_element.wf, storage_element.size, storage_element.available,
    storage_element.capacity.
  intros (H1 & H2 & H3 & H4).
  rewrite !wrap_small by (unfold is_size_t; lia). lia.
Qed.

(** [acquire(n)] passes its assertion exactly when [n] bytes are
    available; it then moves [n] bytes from the available to the used
    part: the block keeps its invariant, its capacity and its first
    readable bytes. *)
Lemma element_acquire_spec e n :
  storage_element.wf e -> 0 <= n ->
  (is_Some (storage_element.acquire e n) <-> n <= storage_element.available e)
  /\ forall e', storage_element.acquire e n = Some e' ->
       storage_element.wf e'
       /\ storage_element.size e' = storage_element.size e + n
       /\ storage_element.available e' = storage_element.available e - n
       /\ storage_element.capacity e' = storage_element.capacity e
       /\ take (Z.to_nat (storage_element.size e))
            (buffer_bytes mem (storage_element.to_buffer e')) =
          buffer_bytes mem (storage_element.to_buffer e).
Proof.
  intros Hwf Hn. destruct (element_sizes e Hwf) as (Hs & Ha & Hc).
  pose proof Hwf as (H1 & H2 & H3 & H4).
  unfold storage_element.acquire.
  destruct (Z.leb_spec n (storage_element.available e)) as [Hle|Hgt].
  - split; [split; [intros _; exact Hle | intros _; eexists; reflexivity]|].
    intros e' [= <-].
    assert (Hwf' : storage_element.wf
      (storage_element.mk (storage_element.begin_data_ e) (storage_element.end_data_ e)
         (storage_element.begin_used_ e) (storage_element.end_used_ e + n)))
      by (unfold storage_element.wf; cbn; lia).
    destruct (element_sizes _ Hwf') as (Hs' & Ha' & Hc'). cbn in Hs', Ha', Hc'.
    split; [exact Hwf'|]. repeat split; try lia.
    unfold buffer_bytes, storage_element.to_buffer, storage_element.data;
      cbn [buf_data buf_size storage_element.begin_used_].
    rewrite Hs'. apply read_n_take. lia.
  - split; [split; [intros [x Hx]; discriminate | lia]|].
    intros e'; discriminate.
Qed.

(** [consume(n)] and [clear()] never change the capacity.  [consume(n)]
    removes [n] bytes at the front and leaves the available bytes as they
    are; [clear()] empties the block at its current read position, so the
    used bytes become available, but not the bytes consumed before. *)
Lemma element_consume_clear_spec e n e' :
  storage_element.wf e -> 0 <= n ->
  storage_element.consume e n = Some e' ->
  (storage_element.wf e'
   /\ storage_element.size e' = storage_element.size e - n
   /\ storage_element.available e' = storage_element.available e
   /\ storage_element.capacity e' = storage_element.capacity e)
  /\ (storage_element.wf (storage_element.clear e')
      /\ storage_element.size (storage_element.clear e') = 0
      /\ storage_element.capacity (storage_element.clear e') = storage_element.capacity e
      /\ storage_element.available (storage_element.clear e') =
         storage_element.capacity e
         - (storage_element.begin_used_ e - storage_element.begin_data_ e) - n).
Proof.
  intros Hwf Hn. destruct (element_sizes e Hwf) as (Hs & Ha & Hc).
  pose proof Hwf as (H1 & H2 & H3 & H4).
  unfold storage_element.consume.
  destruct (Z.leb_spec n (storage_element.size e)) as [Hle|Hgt]; [|discriminate].
  intros [= <-].
  assert (Hwf' : storage_element.wf
    (storage_element.mk (storage_element.begin_data_ e) (storage_element.end_data_ e)
       (storage_element.begin_used_ e + n) (storage_element.end_used_ e)))
    by (unfold storage_element.wf; cbn; lia).
  destruct (element_sizes _ Hwf') as (Hs' & Ha' & Hc'). cbn in Hs', Ha', Hc'.
  split; [split; [exact Hwf'|]; repeat split; lia|].
  assert (Hwf'' : storage_element.wf (storage_element.clear
    (storage_element.mk (storage_element.begin_data_ e) (storage_element.end_data_ e)
       (storage_element.begin_used_ e + n) (storage_element.end_used_ e))))
    by (unfold storage_element.wf, storage_element.clear, storage_element.data; cbn; lia).
  destruct (element_sizes _ Hwf'') as (Hs'' & Ha'' & Hc'').
  set (c := storage_element.clear _) in *.
  assert (Hb : storage_element.begin_used_ c = storage_element.begin_used_ e + n
               /\ storage_element.end_used_ c = storage_element.begin_used_ e + n
               /\ storage_element.begin_data_ c = storage_element.begin_data_ e
               /\ storage_element.end_data_ c = storage_element.end_data_ e)
    by (repeat split; reflexivity).
  destruct Hb as (Hb1 & Hb2 & Hb3 & Hb4).
  split; [exact Hwf''|]. repeat split; lia.
Qed.

End BlockAccounting.

(** ** storage_element_container::consume, in sequence *)

Section ConsumeCompose.
Import storage_element_container.

Lemma consume_loop_total store n :
  Forall storage_element.wf store -> is_size_t n ->
  exists store' freed, consume_loop n store = Some (store', freed).
Proof.
  intros Hwf Hn.
  destruct (consume_loop_spec (fun _ => x00) store Hwf n Hn)
    as (store' & freed & _ & H & _).
  now exists store', freed.
Qed.

(** The blocks [consume] keeps satisfy the class invariant. *)
Lemma consume_loop_wf store :
  Forall storage_element.wf store -> forall n store' freed,
  is_size_t n ->
  consume_loop n store = Some (store', freed) ->
  Forall storage_element.wf store'.
Proof.
  induction 1 as [|e store He Hst IH]; intros n store' freed Hn Hrun.
  - cbn in Hrun. injection Hrun as <- <-. constructor.
  - destruct (element_size_wf e He) as [Hsz Hr]. unfold is_size_t in *.
    cbn [consume_loop] in Hrun.
    destruct (Z.eqb_spec n 0); [injection Hrun as <- <-; now constructor|].
    destruct (Z.leb_spec (storage_element.size e) n).
    + destruct (consume_loop (sz_sub n (storage_element.size e)) store)
        as [[s f]|] eqn:E; [|discriminate].
      cbn in Hrun. injection Hrun as <- <-.
      apply (IH _ _ _ (wrap_range _) E).
    + destruct (element_consume_bytes (fun _ => x00) e n He) as (e' & Hc & Hwf' & _);
        [lia|].
      rewrite Hc in Hrun. cbn in Hrun. injection Hrun as <- <-.
      now constructor.
Qed.

Lemma element_consume_consume e a b e' e'' :
  storage_element.wf e -> 0 <= a -> 0 <= b ->
  a + b <= storage_element.size e ->
  storage_element.consume e a = Some e' ->
  storage_element.consume e' b = Some e'' ->
  storage_element.consume e (a + b) = Some e''.
Proof.
  intros Hwf Ha Hb Hab. unfold storage_element.consume.
  destruct (Z.leb_spec a (storage_element.size e)); [|lia].
  destruct (Z.leb_spec (a + b) (storage_element.size e)); [|lia].
  intros [= <-].
  destruct (b <=? _); [|discriminate].
  intros [= <-]. cbn. do 2 f_equal. lia.
Qed.

(** [consume(a)] followed by [consume(b)] leaves the blocks that
    [consume(a + b)] leaves, when [a + b] does not wrap. *)
Lemma consume_loop_compose store :
  Forall storage_element.wf store -> forall a b,
  is_size_t a -> is_size_t b -> a + b < size_t_modulus ->
  exists s1 f1 s2 f2 f12,
    consume_loop a store = Some (s1, f1)
    /\ consume_loop b s1 = Some (s2, f2)
    /\ consume_loop (a + b) store = Some (s2, f12)
    /\ length f12 = (length f1 + length f2)%nat.
Proof.
  induction 1 as [|e store He Hst IH]; intros a b Ha Hb Hab.
  - exists [], [], [], [], []. repeat split; reflexivity.
  - destruct (element_size_wf e He) as [Hsz Hr]. unfold is_size_t in *.
    cbn [consume_loop]. destruct (Z.eqb_spec a 0) as [->|Ha0].
    + destruct (consume_loop_total (e :: store) b) as (s2 & f2 & H2);
        [now constructor | exact Hb |].
      exists (e :: store), [], s2, f2, f2. rewrite Z.add_0_l.
      cbn [consume_loop] in H2. repeat split; [exact H2 | exact H2].
    + destruct (Z.eqb_spec (a + b) 0); [lia|].
      destruct (Z.leb_spec (storage_element.size e) a) as [Hle|Hlt].
      * destruct (Z.leb_spec (storage_element.size e) (a + b)); [|lia].
        unfold sz_sub. rewrite !wrap_small by (unfold is_size_t; lia).
        destruct (IH (a - storage_element.size e) b)
          as (s1 & f1 & s2 & f2 & f12 & H1 & H2 & H12 & Hlen); [lia | lia | lia |].
        replace (a + b - storage_element.size e)
          with (a - storage_element.size e + b) by lia.
        rewrite H1, H12. cbn [mbind option_bind].
        exists s1, (e :: f1), s2, f2, (e :: f12).
        repeat split; [exact H2 | cbn; lia].
      * destruct (element_consume_bytes (fun _ => x00) e a He)
          as (e' & Hc & Hwf' & Hs' & _); [lia|].
        rewrite Hc. cbn [mbind option_bind].
        destruct (element_size_wf e' Hwf') as [Hsz' Hr'].
        exists (e' :: store), [].
        cbn [consume_loop]. destruct (Z.eqb_spec b 0) as [->|Hb0].
        -- exists (e' :: store), [], [].
           rewrite Z.add_0_r.
           destruct (Z.leb_spec (storage_element.size e) a); [lia|].
           rewrite Hc. repeat split; reflexivity.
        -- destruct (Z.leb_spec (storage_element.size e') b) as [Hle'|Hlt'].
           ++ destruct (Z.leb_spec (storage_element.size e) (a + b)); [|lia].
              unfold sz_sub. rewrite !wrap_small by (unfold is_size_t; lia).
              replace (a + b - storage_element.size e)
                with (b - storage_element.size e') by lia.
              destruct (consume_loop_total store (b - storage_element.size e'))
                as (s2 & f2 & H2); [exact Hst | unfold is_size_t; lia |].
              rewrite H2. cbn [mbind option_bind].
              exists s2, (e' :: f2), (e :: f2).
              repeat split; reflexivity.
           ++ destruct (Z.leb_spec (storage_element.size e) (a + b)); [lia|].
              destruct (element_consume_bytes (fun _ => x00) e' b Hwf')
                as (e'' & Hc' & _); [lia|].
              assert (Hsame : storage_element.consume e (a + b) = Some e'')
                by (apply (element_consume_consume e a b e' e''); (assumption || lia)).
              rewrite Hc', Hsame. cbn [mbind option_bind].
              exists (e'' :: store), [], [].
              repeat split; reflexivity.
Qed.

(** The same for [consume] on the container: the second call succeeds on
    the result of the first, and the blocks left are those of a single
    call with the sum; all of them satisfy the class invariant. *)
Lemma consume_compose c a b :
  Forall storage_element.wf (store_ c) ->
  is_size_t a -> is_size_t b -> a + b < size_t_modulus ->
  exists c1 f1 c2 f2 f12,
    consume a c = Some (c1, f1)
    /\ consume b c1 = Some (c2, f2)
    /\ consume (a + b) c = Some (c2, f12)
    /\ length f12 = (length f1 + length f2)%nat
    /\ Forall storage_element.wf (store_ c1)
    /\ Forall storage_element.wf (store_ c2).
Proof.
  intros Hwf Ha Hb Hab.
  destruct (consume_loop_compose _ Hwf a b Ha Hb Hab)
    as (s1 & f1 & s2 & f2 & f12 & H1 & H2 & H12 & Hlen).
  pose proof (consume_loop_wf _ Hwf _ _ _ Ha H1) as Hwf1.
  pose proof (consume_loop_wf _ Hwf1 _ _ _ Hb H2) as Hwf2.
  exists (mk s1 (limit_ c) (min_block_size_ c)), f1,
         (mk s2 (limit_ c) (min_block_size_ c)), f2, f12.
  unfold consume. rewrite H1, H12. cbn [mbind option_bind store_ limit_ min_block_size_].
  rewrite H2. cbn [mbind option_bind].
  repeat split; assumption.
Qed.

End ConsumeCompose.

(** Two blocks of 2 and 3 readable bytes: 1 byte, then 3 bytes. *)
Lemma consume_compose_witness :
  let c := storage_element_container.mk
             [storage_element.mk 1000 5096 1000 1002;
              storage_element.mk 9000 13096 9000 9003] 100 4096 in
  exists c1 f1 c2 f2 f12,
    storage_element_container.consume 1 c = Some (c1, f1)
    /\ storage_element_container.consume 3 c1 = Some (c2, f2)
    /\ storage_element_container.consume (1 + 3) c = Some (c2, f12).
Proof.
  intros c.
  destruct (consume_compose c 1 3) as (c1 & f1 & c2 & f2 & f12 & H1 & H2 & H3 & _).
  - repeat constructor; unfold storage_element.wf, size_t_modulus; cbn; lia.
  - unfold is_size_t, size_t_modulus; lia.
  - unfold is_size_t, size_t_modulus; lia.
  - unfold size_t_modulus; lia.
  - exists c1, f1, c2, f2, f12. repeat split; assumption.
Defined.

(** ** buffer_sequence_iterator: arithmetic and comparison *)

Section IteratorMore.
Import buffer_sequence_iterator.



(** The relational operators are reversed: an iterator into a vector
    compares greater than every iterator behind it, and less than none of
    them. *)
Lemma iterator_order_reversed it i n :
  f_ it = slot i -> 0 < n ->
  less it (plus it n) = false
  /\ greater it (plus it n) = true
  /\ less (plus it n) it = true
  /\ less_equal it (plus it n) = false
  /\ greater_equal it (plus it n) = true
  /\ diff (plus it n) it = n.
Proof.
  intros Hf Hn.
  unfold less_equal, greater_equal, less, greater, diff, plus, advance; cbn [f_].
  rewrite Hf; cbn [ptr_add ptr_ltb distance].
  destruct (Z.ltb_spec (i + n) i); [lia|].
  destruct (Z.ltb_spec i (i + n)); [|lia].
  repeat split; try reflexivity. lia.
Qed.


End IteratorMore.

(** The iterator [begin()] of a fresh view over three blocks, moved to
    position 1. *)
Lemma iterator_order_reversed_witness :
  let it := buffer_sequence.begin_ (Samples.whole Samples.three_blocks) in
  buffer_sequence_iterator.less it (buffer_sequence_iterator.plus it 1) = false
  /\ buffer_sequence_iterator.greater it (buffer_sequence_iterator.plus it 1) = true.
Proof.
  intros it.
  destruct (iterator_order_reversed it 0 1) as (H1 & H2 & _);
    [reflexivity | lia | split; assumption].
Defined.


(** ** make_sequence and adjust on whole views *)

Section WholeViews.
Import buffer_sequence_iterator buffer_sequence.

Variable mem : memory.

Lemma trim_zero_amounts it r :
  discount.amount (initial_discount_ it) = 0 ->
  discount.amount (final_discount_ it) = 0 ->
  trim it r = r.
Proof.
  intros Hi Hf. unfold trim, discount.applies. rewrite Hi, Hf. cbn.
  now rewrite !andb_false_r.
Qed.

Lemma element_at_nat (store : list storage_element.t) (i : nat) :
  element_at store (Z.of_nat i) = store !! i.
Proof.
  unfold element_at. destruct (Z.leb_spec 0 (Z.of_nat i)); [|lia].
  now rewrite Nat2Z.id.
Qed.

(** Iterators whose discounts have amount 0 dereference to the blocks'
    own regions. *)
Lemma regions_loop_raw store k : forall it i,
  f_ it = slot (Z.of_nat i) ->
  discount.amount (initial_discount_ it) = 0 ->
  discount.amount (final_discount_ it) = 0 ->
  (i + k = length store)%nat ->
  regions_loop store it k = Some (map storage_element.to_buffer (drop i store)).
Proof.
  induction k as [|k IH]; intros it i Hf Hi Hfin Hlen.
  - rewrite drop_ge by lia. reflexivity.
  - cbn [regions_loop]. unfold deref. rewrite Hf. cbn [load].
    rewrite element_at_nat.
    destruct (lookup_lt_is_Some_2 store i) as [e He]; [lia|].
    rewrite He. cbn [mbind option_bind].
    rewrite (IH (advance it 1) (S i)); [| | assumption | assumption | lia].
    + cbn [mbind option_bind]. rewrite (drop_S _ _ _ He).
      cbn [map]. now rewrite trim_zero_amounts.
    + cbn [advance f_]. rewrite Hf. cbn [ptr_add]. f_equal. lia.
Qed.

Lemma readable_size_drop (store : list storage_element.t) i e :
  store !! i = Some e ->
  storage_element_container.readable_size (drop i store) =
  storage_element.size e + storage_element_container.readable_size (drop (S i) store).
Proof. intros He. now rewrite (drop_S _ _ _ He). Qed.

Lemma buffer_size_loop_raw store k : forall it i total,
  f_ it = slot (Z.of_nat i) ->
  discount.amount (initial_discount_ it) = 0 ->
  discount.amount (final_discount_ it) = 0 ->
  (i + k = length store)%nat ->
  is_size_t total ->
  buffer_size_loop store it k total =
  Some (wrap (total + storage_element_container.readable_size (drop i store))).
Proof.
  induction k as [|k IH]; intros it i total Hf Hi Hfin Hlen Ht.
  - rewrite drop_ge by lia. cbn. now rewrite Z.add_0_r, wrap_small.
  - cbn [buffer_size_loop]. unfold deref. rewrite Hf. cbn [load].
    rewrite element_at_nat.
    destruct (lookup_lt_is_Some_2 store i) as [e He]; [lia|].
    rewrite He. cbn [mbind option_bind].
    rewrite (IH (advance it 1) (S i)); [| | assumption | assumption | lia | apply wrap_range].
    + rewrite (readable_size_drop _ _ _ He), trim_zero_amounts by assumption.
      f_equal. unfold sz_add, wrap, storage_element.to_buffer; cbn [buf_size].
      rewrite Z.add_mod_idemp_l by (unfold size_t_modulus; lia).
      f_equal. lia.
    + cbn [advance f_]. rewrite Hf. cbn [ptr_add]. f_equal. lia.
Qed.

(** The view [make_sequence()] returns dereferences to the region of every
    block in order: its flattened bytes are the readable bytes of the
    container and [net::buffer_size] of it is their number, modulo
    [2^64]. *)
Lemma make_sequence_whole c :
  let store := storage_element_container.store_ c in
  let v := storage_element_container.make_sequence c in
  regions store v = Some (map storage_element.to_buffer store)
  /\ flatten mem store v = Some (storage_element_container.readable mem store)
  /\ buffer_size store v =
     Some (wrap (storage_element_container.readable_size store)).
Proof.
  intros store v.
  assert (Hc : count v = Z.of_nat (length store))
    by (unfold count, v, storage_element_container.make_sequence, make;
        cbn [f_ begin_ end_ advance ptr_add distance]; fold store; lia).
  assert (Hr : regions store v = Some (map storage_element.to_buffer store)).
  { unfold regions. rewrite Hc. destruct (Z.ltb_spec (Z.of_nat (length store)) 0); [lia|].
    rewrite Nat2Z.id. now apply (regions_loop_raw store (length store) (begin_ v) 0). }
  split; [exact Hr|]. split.
  - unfold flatten. rewrite Hr. cbn [mbind option_bind].
    unfold storage_element_container.readable. now rewrite map_map.
  - unfold buffer_size. rewrite Hc.
    destruct (Z.ltb_spec (Z.of_nat (length store)) 0); [lia|].
    rewrite Nat2Z.id.
    now rewrite (buffer_size_loop_raw store (length store) (begin_ v) 0 0)
      by (try reflexivity; unfold is_size_t, size_t_modulus; lia).
Qed.

(** The view of a container after [consume(n)]: its flattened bytes are
    the readable bytes the container had, without the first [n], and
    [net::buffer_size] of it is the number of bytes left, modulo [2^64]. *)
Lemma make_sequence_after_consume c n :
  Forall storage_element.wf (storage_element_container.store_ c) ->
  is_size_t n ->
  exists c' freed,
    storage_element_container.consume n c = Some (c', freed)
    /\ flatten mem (storage_element_container.store_ c')
         (storage_element_container.make_sequence c') =
       Some (drop (Z.to_nat n)
               (storage_element_container.readable mem
                  (storage_element_container.store_ c)))
    /\ buffer_size (storage_element_container.store_ c')
         (storage_element_container.make_sequence c') =
       Some (wrap (storage_element_container.readable_size
                     (storage_element_container.store_ c)
                   - Z.min n (storage_element_container.readable_size
                                (storage_element_container.store_ c)))).
Proof.
  intros Hwf Hn.
  destruct (consume_loop_spec mem _ Hwf n Hn)
    as (store' & freed & k & Hrun & Hbytes & Hsize & _ & _).
  unfold storage_element_container.consume. rewrite Hrun.
  cbn [mbind option_bind]. do 2 eexists. split; [reflexivity|].
  destruct (make_sequence_whole
              (storage_element_container.mk store'
                 (storage_element_container.limit_ c)
                 (storage_element_container.min_block_size_ c)))
    as (_ & Hflat & Hcount).
  cbn [storage_element_container.store_] in *.
  rewrite Hflat, Hcount, Hbytes, Hsize. split; reflexivity.
Qed.

End WholeViews.

(** ** adjust on whole views and on one block *)

Section AdjustMore.
Import buffer_sequence_iterator buffer_sequence.

Variable mem : memory.

Lemma readable_size_nonneg store :
  Forall storage_element.wf store ->
  0 <= storage_element_container.readable_size store.
Proof. intros H. now destruct (readable_length mem store H). Qed.

(** When the limit is exactly the number of bytes from the current block
    to the end, the second loop of [adjust] ends with a final discount of
    amount 0. *)
Lemma limit_loop_exact store k : forall j limit cd fd first,
  Forall storage_element.wf store ->
  (j + k = length store)%nat -> (1 <= k)%nat ->
  discount.amount cd = 0 ->
  limit = storage_element_container.readable_size (drop j store) ->
  limit < size_t_modulus ->
  exists d, limit_loop store k first (Z.of_nat j) limit cd fd = Some d
            /\ discount.amount d = 0.
Proof.
  induction k as [|k IH]; intros j limit cd fd first Hwf Hlen Hk Hcd Hlimit Hfit; [lia|].
  cbn [limit_loop]. unfold current_size. rewrite element_at_nat.
  destruct (lookup_lt_is_Some_2 store j) as [e He]; [lia|].
  rewrite He. cbn [mbind option_bind].
  assert (Hna : discount.applies cd = false)
    by (unfold discount.applies; rewrite Hcd; cbn; apply andb_false_r).
  rewrite Hna.
  rewrite (readable_size_drop _ _ _ He) in Hlimit.
  pose proof (readable_size_nonneg (drop (S j) store) (Forall_drop _ _ _ Hwf)) as Hrest.
  assert (He_wf : storage_element.wf e)
    by (rewrite Forall_forall in Hwf; apply Hwf; eapply list_elem_of_lookup_2; exact He).
  destruct (element_size_wf e He_wf) as [_ Hr]. unfold is_size_t in Hr.
  destruct (Z.leb_spec limit (storage_element.size e)) as [Hle|Hgt].
  - eexists. split; [reflexivity|]. cbn [discount.amount].
    unfold sz_sub. replace (storage_element.size e - limit) with 0 by lia. reflexivity.
  - destruct k as [|k].
    + rewrite drop_ge in Hlimit by lia. cbn in Hlimit. lia.
    + replace (Z.of_nat j + 1) with (Z.of_nat (S j)) by lia.
      unfold sz_sub. rewrite wrap_small by (unfold is_size_t; lia).
      apply IH; try assumption; lia.
Qed.

(** [adjust(0, limit)] with a limit of at least the number of readable
    bytes returns, on the view of [make_sequence()], a view over the same
    bytes. *)
Lemma adjust_whole c limit :
  let store := storage_element_container.store_ c in
  Forall storage_element.wf store ->
  storage_element_container.readable_size store < size_t_modulus ->
  is_size_t limit ->
  storage_element_container.readable_size store <= limit ->
  exists v',
    adjust store (storage_element_container.make_sequence c) 0 limit = Some v'
    /\ flatten mem store v' = Some (storage_element_container.readable mem store).
Proof.
  intros store Hwf Hfit Hlimit Hall.
  destruct (make_sequence_whole mem c) as (_ & Hflat & Hsize).
  fold store in Hflat, Hsize.
  pose proof (readable_size_nonneg store Hwf) as Hnn.
  rewrite wrap_small in Hsize by (unfold is_size_t; lia).
  unfold adjust. set (v := storage_element_container.make_sequence c) in *.
  assert (Hb : begin_ v = buffer_sequence_iterator.mk (slot 0) (discount.mk 0 0)
                             (discount.mk 0 (Z.of_nat (length store) - 0 - 1)))
    by reflexivity.
  assert (He : f_ (end_ v) = slot (0 + (Z.of_nat (length store) - 0))) by reflexivity.
  unfold eqb. rewrite Hb, He. cbn [f_ ptr_eqb initial_discount_].
  destruct (Z.eqb_spec 0 (0 + (Z.of_nat (length store) - 0))) as [Hempty|Hne].
  { exists v. split; [reflexivity | exact Hflat]. }
  rewrite Hsize. cbn [mbind option_bind].
  destruct (Z.ltb_spec 0 (storage_element_container.readable_size store)) as [Hpos|Hzero].
  - unfold sz_sub. rewrite Z.sub_0_r, wrap_small by (unfold is_size_t; lia).
    rewrite Z.min_r by lia.
    destruct (Z.eqb_spec (storage_element_container.readable_size store) 0); [lia|].
    change (discount.applies (discount.mk 0 0)) with false. cbv iota.
    destruct (length store) as [|len] eqn:Hlen; [lia|].
    replace (Z.to_nat (0 + (Z.of_nat (S len) - 0) - 0)) with (S len) by lia.
    cbn [skip_loop Z.eqb mbind option_bind].
    replace (Z.to_nat (0 + (Z.of_nat (S len) - 0) - 0)) with (S len) by lia.
    destruct (lookup_lt_is_Some_2 store 0) as [e0 He0]; [lia|].
    assert (Hcs : current_size store 0 (discount.mk 0 0) = Some (storage_element.size e0)).
    { unfold current_size. change (element_at store 0) with (element_at store (Z.of_nat 0)).
      rewrite element_at_nat, He0. reflexivity. }
    rewrite Hcs. cbn [mbind option_bind].
    destruct (limit_loop_exact store (S len) 0
                (storage_element_container.readable_size store)
                (discount.mk 0 0)
                (discount.mk
                   (wrap (storage_element_container.readable_size store
                          - storage_element.size e0)) (0 - 0)) 0)
      as (d & Hd & Hamount); try assumption; try reflexivity; try lia.
    change (Z.of_nat 0) with 0 in Hd. rewrite Hd. cbn [mbind option_bind].
    eexists. split; [reflexivity|].
    unfold flatten, regions, count. cbn [f_ begin_ end_ plus advance ptr_add distance].
    destruct (Z.ltb_spec (0 + (0 + (Z.of_nat (S len) - 0) - 0) - 0) 0); [lia|].
    replace (Z.to_nat (0 + (0 + (Z.of_nat (S len) - 0) - 0) - 0)) with (length store)
      by lia.
    rewrite (regions_loop_raw store (length store) _ 0);
      [| reflexivity | reflexivity | exact Hamount | lia].
    cbn [mbind option_bind drop].
    unfold storage_element_container.readable. now rewrite map_map.
  - rewrite Z.min_r by (unfold is_size_t in Hlimit; lia). cbn [Z.eqb].
    eexists. split; [reflexivity|].
    destruct (readable_length mem store Hwf) as [Hlen _].
    assert (Hnil : storage_element_container.readable mem store = [])
      by (apply length_zero_iff_nil; lia).
    rewrite Hnil. reflexivity.
Qed.

(** On a view over a single block, [adjust(pos, limit)] with [pos] inside
    the block and a positive limit returns one region of
    [r = min(limit, size - pos)] bytes, and it is the region of the last
    [r] bytes of the block: the bytes from [pos] on when the limit does not
    cut them short, the tail of them otherwise. *)
Lemma adjust_single_block e pos limit max_limit block_size :
  storage_element.wf e -> is_size_t pos -> is_size_t limit ->
  pos < storage_element.size e -> 0 < limit ->
  let store := [e] in
  let v := storage_element_container.make_sequence
             (storage_element_container.mk store max_limit block_size) in
  let r := Z.min limit (storage_element.size e - pos) in
  exists v',
    adjust store v pos limit = Some v'
    /\ regions store v' =
       Some [mk_buffer (storage_element.data e + (storage_element.size e - r)) r]
    /\ flatten mem store v' =
       Some (drop (Z.to_nat (storage_element.size e - r))
               (buffer_bytes mem (storage_element.to_buffer e))).
Proof.
  intros Hwf Hpos Hlimit Hin Hlim store v r.
  destruct (element_size_wf e Hwf) as [_ Hr]. unfold is_size_t in *.
  destruct (make_sequence_whole mem
              (storage_element_container.mk store max_limit block_size))
    as (_ & _ & Hsize).
  cbn [storage_element_container.store_] in Hsize. fold store v in Hsize.
  assert (Hs : buffer_size store v = Some (storage_element.size e)).
  { rewrite Hsize. f_equal. cbn. rewrite Z.add_0_r. apply wrap_small. exact Hr. }
  assert (Hat : element_at store 0 = Some e) by reflexivity.
  assert (Hregion : forall a b wf_ wi,
            regions store
              (mk (buffer_sequence_iterator.mk (slot 0) (discount.mk a wi) (discount.mk b wf_))
                  (advance (buffer_sequence_iterator.mk (slot 0) (discount.mk a wi)
                              (discount.mk b wf_)) 1)) =
            Some [trim (buffer_sequence_iterator.mk (slot 0) (discount.mk a wi)
                          (discount.mk b wf_)) (storage_element.to_buffer e)])
    by reflexivity.
  unfold adjust.
  change (eqb (begin_ v) (end_ v)) with false. cbv iota.
  rewrite Hs. cbn [mbind option_bind]. cbv zeta.
  assert (Hclamp : Z.min limit (if pos <? storage_element.size e
                                then sz_sub (storage_element.size e) pos else 0) = r).
  { destruct (Z.ltb_spec pos (storage_element.size e)); [|lia].
    unfold sz_sub. now rewrite wrap_small by (unfold is_size_t; lia). }
  rewrite !Hclamp.
  assert (Hr0 : 0 < r <= storage_element.size e - pos) by (unfold r; lia).
  clearbody r. clear Hclamp.
  destruct (Z.eqb_spec r 0); [lia|].
  change (f_ (begin_ v)) with (slot 0). change (f_ (end_ v)) with (slot 1).
  cbv iota beta.
  change (initial_discount_ (begin_ v)) with (discount.mk 0 0).
  change (discount.applies (discount.mk 0 0)) with false. cbv iota.
  change (Z.to_nat (1 - 0)) with 1%nat.
  cbn [skip_loop]. rewrite Hat. cbn [mbind option_bind].
  destruct (Z.eqb_spec pos 0) as [->|Hp0].
  - cbn [mbind option_bind]. change (Z.to_nat (1 - 0)) with 1%nat.
    unfold current_size. rewrite Hat. cbn [mbind option_bind].
    change (discount.applies (discount.mk 0 0)) with false. cbv iota.
    cbn [limit_loop]. unfold current_size. rewrite Hat. cbn [mbind option_bind].
    change (discount.applies (discount.mk 0 0)) with false. cbv iota.
    destruct (Z.leb_spec r (storage_element.size e)); [|lia].
    cbn [mbind option_bind]. eexists. split; [reflexivity|].
    unfold flatten. change (plus ?b (1 - 0)) with (advance b 1).
    rewrite Hregion. cbn [mbind option_bind map concat].
    unfold trim, discount.applies; cbn [initial_discount_ final_discount_
      discount.amount discount.where_ Z.eqb negb andb].
    replace (0 - 0 =? 0) with true by reflexivity. cbn [andb].
    unfold sz_sub. rewrite (wrap_small (storage_element.size e - r))
      by (unfold is_size_t; lia).
    destruct (Z.eqb_spec (storage_element.size e - r) 0) as [Hz|Hnz]; cbn [negb].
    + split; [do 2 f_equal; unfold storage_element.to_buffer;
              f_equal; lia|].
      rewrite Hz, app_nil_r. reflexivity.
    + unfold storage_element.to_buffer; cbn [buf_data buf_size].
      rewrite (wrap_small (storage_element.size e - (storage_element.size e - r)))
        by (unfold is_size_t; lia).
      split; [do 2 f_equal; f_equal; lia|].
      rewrite app_nil_r. unfold buffer_bytes; cbn [buf_data buf_size].
      rewrite read_n_drop by lia. f_equal. apply read_n_eq; lia.
  - destruct (Z.ltb_spec (storage_element.size e) pos); [lia|].
    cbn [mbind option_bind]. change (Z.to_nat (1 - 0)) with 1%nat.
    assert (Hap : discount.applies (discount.mk pos 0) = true).
    { unfold discount.applies; cbn. destruct (Z.eqb_spec pos 0); [lia | reflexivity]. }
    unfold current_size. rewrite Hat. cbn [mbind option_bind]. rewrite Hap.
    cbn [limit_loop]. unfold current_size. rewrite Hat. cbn [mbind option_bind].
    rewrite Hap. cbn [discount.amount].
    unfold sz_sub. rewrite (wrap_small (storage_element.size e - pos))
      by (unfold is_size_t; lia).
    destruct (Z.leb_spec r (storage_element.size e - pos)); [|lia].
    cbn [mbind option_bind]. eexists. split; [reflexivity|].
    unfold flatten. change (plus ?b (1 - 0)) with (advance b 1).
    rewrite Hregion. cbn [mbind option_bind map concat].
    unfold trim; cbn [initial_discount_ final_discount_]. rewrite Hap.
    unfold discount.applies; cbn [discount.amount discount.where_].
    replace (0 - 0 =? 0) with true by reflexivity. cbn [andb].
    rewrite (wrap_small (storage_element.size e - pos - r))
      by (unfold is_size_t; lia).
    unfold storage_element.to_buffer, buffer_advance; cbn [buf_data buf_size].
    destruct (Z.ltb_spec pos (storage_element.size e)); [|lia].
    cbn [buf_data buf_size].
    destruct (Z.eqb_spec (storage_element.size e - pos - r) 0) as [Hz|Hnz]; cbn [negb].
    + split; [do 2 f_equal; f_equal; lia|].
      rewrite app_nil_r. unfold buffer_bytes; cbn [buf_data buf_size].
      rewrite read_n_drop by lia. f_equal. apply read_n_eq; lia.
    + unfold sz_sub.
      rewrite (wrap_small (storage_element.size e - pos
                           - (storage_element.size e - pos - r)))
        by (unfold is_size_t; lia).
      split; [do 2 f_equal; f_equal; lia|].
      rewrite app_nil_r. unfold buffer_bytes; cbn [buf_data buf_size].
      rewrite read_n_drop by lia. f_equal. apply read_n_eq; lia.
Qed.

End AdjustMore.

(** ** dynamic_buffer_handle: prepare, data, commit *)

Section HandleMore.
Import dynamic_buffer_handle.

(** On a handle with nothing prepared, a [prepare(n)] that fits returns [n]
    bytes and leaves [size()] as it was; [data()] then designates those
    [n] prepared bytes.  A following [commit(m)] makes [size()] grow by
    [min(m, n)], keeps the bytes the buffer held before as its first bytes,
    and leaves nothing prepared: [data()] is then empty. *)
Lemma handle_prepare_commit (impl : impl_class vector_buffer.t) (n m : Z) :
  prepared impl = 0 -> is_size_t n -> is_size_t m ->
  vector_buffer.size (dyn_buf impl) + n <= max_size impl ->
  vector_buffer.size (dyn_buf impl) + n < size_t_modulus ->
  exists w impl1,
    prepare n impl = Returns w impl1
    /\ Z.of_nat (length w) = n
    /\ size impl1 = size impl
    /\ data impl1 = w
    /\ prepared (commit m impl1) = 0
    /\ size (commit m impl1) = size impl + Z.min m n
    /\ take (length (vector_buffer.bytes (dyn_buf impl)))
         (vector_buffer.bytes (dyn_buf (commit m impl1))) =
       vector_buffer.bytes (dyn_buf impl)
    /\ data (commit m impl1) = [].
Proof.
  destruct impl as [[bs mx] p]. cbn [prepared dyn_buf]. intros -> Hn Hm Hfit Hwrap.
  unfold is_size_t, max_size, vector_buffer.size in *;
    cbn [vector_buffer.bytes vector_buffer.ceiling dyn_buf v2_max_size
         vector_buffer_v2] in *.
  assert (Hidx : Z.to_nat (wrap (Z.of_nat (length (bs ++ replicate (Z.to_nat n) x00)) - n))
                 = length bs).
  { rewrite length_app, length_replicate.
    rewrite wrap_small by (unfold is_size_t; lia). lia. }
  assert (Hwin : take (Z.to_nat n)
                   (drop (length bs) (bs ++ replicate (Z.to_nat n) x00)) =
                 replicate (Z.to_nat n) x00).
  { rewrite drop_app_length. apply take_ge. rewrite length_replicate. lia. }
  assert (Hprep : prepare n (mk (vector_buffer.mk bs mx) 0) =
            Returns (replicate (Z.to_nat n) x00)
              (mk (vector_buffer.mk (bs ++ replicate (Z.to_nat n) x00) mx) n)).
  { unfold prepare, sz_add, sz_sub;
      cbn [v2_size v2_max_size v2_grow v2_data vector_buffer_v2 dyn_buf prepared].
    unfold vector_buffer.grow, vector_buffer.data, vector_buffer.size;
      cbn [vector_buffer.bytes vector_buffer.ceiling].
    rewrite (wrap_small (Z.of_nat (length bs) + n)) by (unfold is_size_t; lia).
    destruct (Z.ltb_spec mx (Z.of_nat (length bs) + n)); [lia|].
    cbn [dyn_buf prepared vector_buffer.bytes]. f_equal.
    now rewrite Hidx. }
  do 2 eexists. split; [exact Hprep|].
  split; [rewrite length_replicate; lia|].
  split.
  { unfold size, sz_sub; cbn [v2_size vector_buffer_v2 dyn_buf prepared].
    unfold vector_buffer.size; cbn [vector_buffer.bytes].
    rewrite length_app, length_replicate. f_equal. lia. }
  split.
  { unfold data, sz_sub; cbn [v2_size v2_data vector_buffer_v2 dyn_buf prepared].
    unfold vector_buffer.data, vector_buffer.size; cbn [vector_buffer.bytes].
    now rewrite Hidx. }
  split; [reflexivity|].
  unfold commit; cbn [prepared dyn_buf v2_shrink vector_buffer_v2].
  destruct (Z.ltb_spec m n) as [Hlt|Hge].
  - unfold sz_sub. rewrite (wrap_small (n - m)) by (unfold is_size_t; lia).
    unfold vector_buffer.shrink, vector_buffer.size; cbn [vector_buffer.bytes vector_buffer.ceiling].
    rewrite length_app, length_replicate.
    replace (Z.to_nat (Z.of_nat (length bs + Z.to_nat n)
                       - Z.min (n - m) (Z.of_nat (length bs + Z.to_nat n))))
      with (length bs + Z.to_nat m)%nat by lia.
    split; [|split].
    + unfold size, sz_sub; cbn [v2_size vector_buffer_v2 dyn_buf prepared].
      unfold vector_buffer.size; cbn [vector_buffer.bytes].
      rewrite length_take, length_app, length_replicate.
      rewrite !Z.sub_0_r, !wrap_small by (unfold is_size_t; lia). lia.
    + cbn [vector_buffer.bytes]. rewrite take_take.
      replace (Init.Nat.min (length bs) (length bs + Z.to_nat m)) with (length bs) by lia.
      apply take_app_length.
    + reflexivity.
  - split; [|split].
    + unfold size, sz_sub; cbn [v2_size vector_buffer_v2 dyn_buf prepared].
      unfold vector_buffer.size; cbn [vector_buffer.bytes].
      rewrite length_app, length_replicate.
      rewrite !Z.sub_0_r, !wrap_small by (unfold is_size_t; lia). lia.
    + cbn [vector_buffer.bytes]. apply take_app_length.
    + reflexivity.
Qed.

(** [consume(n)] of the handle consumes from the underlying buffer, whose
    size includes the prepared bytes.  Up to [size()] bytes it removes
    them from the front and leaves the prepared bytes as they are.  Past
    [size()], with bytes prepared, it eats into the prepared bytes, and
    [size()], the difference of two [std::size_t], wraps around. *)
Lemma handle_consume_spec (impl : impl_class vector_buffer.t) (n : Z) :
  0 <= prepared impl <= vector_buffer.size (dyn_buf impl) ->
  vector_buffer.size (dyn_buf impl) < size_t_modulus ->
  0 <= n <= vector_buffer.size (dyn_buf impl) ->
  prepared (consume n impl) = prepared impl
  /\ vector_buffer.bytes (dyn_buf (consume n impl)) =
     drop (Z.to_nat n) (vector_buffer.bytes (dyn_buf impl))
  /\ (n <= size impl ->
      size (consume n impl) = size impl - n
      /\ data (consume n impl) = data impl)
  /\ (size impl < n ->
      size (consume n impl) = size_t_modulus - (n - size impl)).
Proof.
  destruct impl as [[bs mx] p].
  unfold size, data, consume, sz_sub, vector_buffer.size;
    cbn [prepared dyn_buf v2_size v2_data v2_consume vector_buffer_v2].
  unfold vector_buffer.consume, vector_buffer.data, vector_buffer.size;
    cbn [vector_buffer.bytes vector_buffer.ceiling].
  intros Hp Hsz Hn. rewrite length_drop.
  rewrite (wrap_small (Z.of_nat (length bs) - p)) by (unfold is_size_t; lia).
  split; [reflexivity|]. split; [reflexivity|]. split.
  - intros Hle.
    rewrite wrap_small by (unfold is_size_t; lia).
    split; [lia|]. rewrite drop_drop. do 2 f_equal. lia.
  - intros Hgt. unfold wrap.
    replace (Z.of_nat (length bs - Z.to_nat n) - p)
      with (size_t_modulus - (n - (Z.of_nat (length bs) - p))
            + (-1) * size_t_modulus) by lia.
    rewrite Z.mod_add by (unfold size_t_modulus; lia).
    apply Z.mod_small. lia.
Qed.

End HandleMore.

(** ** dynamic_buffer_v0_proxy over the flat static buffer *)

Section ProxyMore.

Variable mem : memory.

(** [grow(n)] on a proxy of a flat static buffer throws
    [std::length_error] exactly when [size() + n] exceeds [max_size()], and
    then changes nothing; otherwise the buffer has [n] more readable bytes
    after the ones it had, and the same [max_size()]. *)
Lemma proxy_grow_flat b n :
  flat_static_buffer_base.wf b -> is_size_t n ->
  let r := dynamic_buffer_v0_proxy.grow n (b, mem) in
  (throws r = true <->
   dynamic_buffer_v0_proxy.max_size (b, mem) < dynamic_buffer_v0_proxy.size (b, mem) + n)
  /\ (throws r = true -> final_state r = (b, mem))
  /\ (throws r = false ->
      flat_static_buffer_base.wf (fst (final_state r))
      /\ dynamic_buffer_v0_proxy.size (final_state r) =
         dynamic_buffer_v0_proxy.size (b, mem) + n
      /\ dynamic_buffer_v0_proxy.max_size (final_state r) =
         dynamic_buffer_v0_proxy.max_size (b, mem)
      /\ take (Z.to_nat (flat_static_buffer_base.size b))
           (flat_static_buffer_base.readable (snd (final_state r)) (fst (final_state r))) =
         flat_static_buffer_base.readable mem b).
Proof.
  intros Hwf Hn r.
  destruct (flat_prepare_spec mem b n Hwf Hn) as [Hiff Hstrong].
  unfold r, dynamic_buffer_v0_proxy.grow, dynamic_buffer_v0_proxy.size,
    dynamic_buffer_v0_proxy.max_size;
    cbn [v0_prepare v0_commit v0_size v0_max_size flat_static_buffer_v0 fst snd].
  destruct (Z_lt_le_dec (flat_static_buffer_base.max_size b)
              (flat_static_buffer_base.size b + n)) as [Hbig|Hfit].
  - pose proof (proj2 Hiff Hbig) as Hthrows. specialize (Hstrong Hthrows).
    destruct (flat_static_buffer_base.prepare n (b, mem)) as [w s|s];
      cbn [throws final_state] in *; [discriminate|].
    subst s. split; [tauto|]. split; [reflexivity | discriminate].
  - destruct (flat_prepare_success mem b n Hwf Hn Hfit)
      as (w & b' & mem' & Hrun & Hwf' & Hread & Hw & Hlast & Hend & Hsize & Hmax).
    rewrite Hrun. cbn [throws final_state fst snd].
    split; [split; [discriminate | lia]|]. split; [discriminate|]. intros _.
    unfold is_size_t in Hn. pose proof Hwf' as (H1 & H2 & H3 & H4).
    destruct (flat_sizes b Hwf) as (Hs & _ & _).
    destruct (flat_sizes b' Hwf') as (Hs' & Hm' & _).
    assert (Hcommit : flat_static_buffer_base.commit (buffers_size [w]) b' =
              flat_static_buffer_base.mk (flat_static_buffer_base.begin_ b')
                (flat_static_buffer_base.in_ b') (flat_static_buffer_base.out_ b' + n)
                (flat_static_buffer_base.last_ b') (flat_static_buffer_base.end_ b')).
    { unfold flat_static_buffer_base.commit, buffers_size, flat_static_buffer_base.dist.
      cbn [foldl]. rewrite Hw. cbn [buf_size]. unfold sz_add. rewrite Z.add_0_l.
      rewrite Hlast. replace (flat_static_buffer_base.out_ b' + n
                              - flat_static_buffer_base.out_ b') with n by lia.
      rewrite !wrap_small by (unfold is_size_t; lia).
      now rewrite Z.min_id. }
    rewrite Hcommit.
    assert (Hwf'' : flat_static_buffer_base.wf
              (flat_static_buffer_base.mk (flat_static_buffer_base.begin_ b')
                (flat_static_buffer_base.in_ b') (flat_static_buffer_base.out_ b' + n)
                (flat_static_buffer_base.last_ b') (flat_static_buffer_base.end_ b')))
      by (unfold flat_static_buffer_base.wf; cbn; lia).
    destruct (flat_sizes _ Hwf'') as (Hs'' & Hm'' & _). cbn in Hs'', Hm''.
    split; [exact Hwf''|]. split; [lia|]. split; [lia|].
    rewrite <- Hread.
    unfold flat_static_buffer_base.readable, buffer_bytes.
    cbn [buf_data buf_size flat_static_buffer_base.in_].
    rewrite Hs'', Hs'. rewrite read_n_take by lia. apply read_n_eq; lia.
Qed.

(** Constructing the proxy does not throw and leaves the size and the
    readable bytes of the flat static buffer as they are. *)
Lemma proxy_make_flat b :
  flat_static_buffer_base.wf b ->
  exists b',
    dynamic_buffer_v0_proxy.make (b, mem) = Returns tt (b', mem)
    /\ flat_static_buffer_base.wf b'
    /\ dynamic_buffer_v0_proxy.size (b', mem) = dynamic_buffer_v0_proxy.size (b, mem)
    /\ flat_static_buffer_base.readable mem b' = flat_static_buffer_base.readable mem b
    /\ flat_static_buffer_base.last_ b' = flat_static_buffer_base.out_ b'.
Proof.
  intros Hwf. destruct (flat_sizes b Hwf) as (Hs & _ & Hd).
  pose proof Hwf as (H1 & H2 & H3 & H4).
  unfold dynamic_buffer_v0_proxy.make, dynamic_buffer_v0_proxy.size;
    cbn [v0_prepare v0_size flat_static_buffer_v0 fst].
  unfold flat_static_buffer_base.prepare. rewrite Hd.
  destruct (Z.leb_spec 0 (flat_static_buffer_base.end_ b - flat_static_buffer_base.out_ b));
    [|lia].
  eexists. split; [reflexivity|].
  split; [unfold flat_static_buffer_base.wf; cbn; lia|].
  split; [reflexivity|]. split; [reflexivity | cbn; lia].
Qed.

End ProxyMore.

(** ** socks5_op: the method-selection reply and the end of a run *)

Section SocksMore.
Import socks.

Variables (hostname : list byte) (port : Z) (username password : list byte)
  (use_hostname : bool).

Local Abbreviation op0 :=
  (make hostname port username password use_hostname) (only parsing).

(** The operation after the greeting has been handed to the transport. *)
Local Abbreviation op1 :=
  (set_coro (build_method_selection_message op0) after_write_greeting)
  (only parsing).

Lemma run_unfold script :
  run op0 script =
  [async_write [x05; x02; x00; x02]; complete_now success] ++ resume op1 script.
Proof. reflexivity. Qed.

(** How a two-byte method-selection reply [v m] is answered, for every
    [v] and [m], once the greeting was written and the reply read without
    error: a version other than 5 ends the run with [protocol_error];
    method 0 ends it with [socks_not_implemented]; method 2 starts the
    username/password sub-negotiation with the stored credentials; any
    other method ends it with [socks_unsupported_authentication_version]. *)
Lemma method_selection_reply (v m : byte) :
  run op0 [mk_completion success []; mk_completion success [v; m]] =
  [async_write [x05; x02; x00; x02]; complete_now success;
   async_read 2; complete_now success] ++
  (if negb (Byte.eqb v x05) then [complete_now protocol_error]
   else if Byte.eqb m x00 then [complete_now socks_not_implemented]
   else if Byte.eqb m x02
        then [async_socks5_auth_username_password username password;
              complete_now success]
        else [complete_now socks_unsupported_authentication_version]).
Proof.
  rewrite run_unfold. cbn [resume app].
  unfold deliver, invoke; cbn.
  unfold validate_authentication_method, buffer_at; cbn.
  unfold SOCKS_VERSION_5, SOCKS5_AUTH_NONE, SOCKS5_AUTH.
  destruct (Byte.eqb v x05) eqn:H5; cbn; [|reflexivity].
  destruct (Byte.eqb m x00) eqn:H0; cbn; rewrite ?H0; cbn; [reflexivity|].
  destruct (Byte.eqb m x02) eqn:H2; cbn; rewrite ?H0, ?H2; cbn; reflexivity.
Qed.

(** A transport error on the write of the greeting, or on the read of the
    reply, is passed to the handler unchanged, and no further operation is
    started on the transport: later completions are not looked at. *)
Lemma transport_error_ends_run (ec : error_code) (received : list byte)
    (rest : list completion) :
  failed ec = true ->
  run op0 (mk_completion ec received :: rest) =
    [async_write [x05; x02; x00; x02]; complete_now success; complete_now ec]
  /\ run op0 (mk_completion success [] :: mk_completion ec received :: rest) =
    [async_write [x05; x02; x00; x02]; complete_now success;
     async_read 2; complete_now success; complete_now ec].
Proof.
  intros Hec. rewrite !run_unfold. cbn [resume app].
  unfold deliver, invoke; cbn. rewrite Hec. cbn.
  split; reflexivity.
Qed.

(** What one entry does, from each stage but the last: it either ends the
    run, reporting an error and starting nothing, or starts one operation,
    invokes the handler and moves to the next stage. *)
Lemma invoke_cases op ec n :
  coro_ op <> coroutine_complete ->
  (exists ec',
     snd (invoke op ec n) = [complete_now ec'] /\ failed ec' = true
     /\ coro_ (fst (invoke op ec n)) = coroutine_complete)
  \/ (exists a ec',
        snd (invoke op ec n) = [a; complete_now ec'] /\ is_async a = true
        /\ match coro_ op with
           | at_start => coro_ (fst (invoke op ec n)) = after_write_greeting
           | after_write_greeting =>
               coro_ (fst (invoke op ec n)) = after_read_method_selection
           | after_read_method_selection =>
               coro_ (fst (invoke op ec n)) = after_authentication
           | _ => False
           end).
Proof.
  intros Hc. unfold invoke.
  destruct (coro_ op) eqn:Hco; try congruence; clear Hc.
  - right. do 2 eexists. cbn. repeat split.
  - destruct (failed ec) eqn:Hec; cbn.
    + left. now exists ec.
    + right. do 2 eexists. repeat split.
  - destruct (failed ec) eqn:Hec; cbn; [left; now exists ec|].
    unfold validate_authentication_method.
    destruct (negb (Byte.eqb (buffer_at op 0) SOCKS_VERSION_5)); cbn;
      [left; now eexists|].
    destruct (Byte.eqb (buffer_at op 1) SOCKS5_AUTH_NONE) eqn:H0; cbn.
    + rewrite Hec, H0. cbn. left. now eexists.
    + destruct (Byte.eqb (buffer_at op 1) SOCKS5_AUTH) eqn:H2; cbn.
      * rewrite Hec, H0, H2. cbn. right. do 2 eexists. repeat split.
      * left. now eexists.
  - destruct (failed ec) eqn:Hec; cbn; left; [now exists ec | now eexists].
Qed.

(** The last handler invocation of the rest of a run, from each stage. *)
Lemma resume_ends_in_error script : forall op,
  match coro_ op with
  | after_authentication => (1 <= length script)%nat
  | after_read_method_selection => (2 <= length script)%nat
  | after_write_greeting => (3 <= length script)%nat
  | _ => False
  end ->
  exists ec, last (resume op script) = Some (complete_now ec) /\ failed ec = true.
Proof.
  induction script as [|c script IH]; intros op Hlen.
  { destruct (coro_ op); cbn in Hlen; try lia; contradiction. }
  cbn [resume].
  assert (Hc : coro_ (deliver op c) <> coroutine_complete).
  { change (coro_ (deliver op c)) with (coro_ op).
    destruct (coro_ op); try discriminate; contradiction. }
  pose proof (invoke_cases (deliver op c) (c_ec c)
                (Z.of_nat (length (c_received c))) Hc) as Hcases.
  change (coro_ (deliver op c)) with (coro_ op) in Hcases.
  destruct (invoke (deliver op c) (c_ec c) (Z.of_nat (length (c_received c))))
    as [op' actions]. cbn [fst snd] in Hcases.
  destruct Hcases as [(ec' & -> & Hf & _) | (a & ec' & -> & Ha & Hnext)].
  - cbn. now exists ec'.
  - cbn [existsb]. rewrite Ha. cbn [orb].
    destruct (IH op') as (ec'' & Hlast & Hf).
    { cbn [length] in Hlen.
      destruct (coro_ op); try contradiction; rewrite Hnext; lia. }
    exists ec''. split; [|exact Hf].
    rewrite last_app, Hlast. reflexivity.
Qed.

(** A run that is carried to its end never ends in success: whatever the
    transport and the server deliver, after at most three completions the
    last invocation of the handler reports an error. *)
Lemma run_ends_in_error (script : list completion) :
  (3 <= length script)%nat ->
  exists ec, last (run op0 script) = Some (complete_now ec) /\ failed ec = true.
Proof.
  intros Hlen. rewrite run_unfold.
  destruct (resume_ends_in_error script op1 Hlen) as (ec & Hlast & Hf).
  exists ec. split; [|exact Hf]. rewrite last_app, Hlast. reflexivity.
Qed.

End SocksMore.

(** ** buffered_read_stream: read_some and async_read_some *)

Section RawMemoryMore.

Variable mem : memory.

(** Stored bytes read back. *)
Lemma read_n_store p bs k : forall j,
  0 <= j -> j + Z.of_nat k <= Z.of_nat (length bs) ->
  read_n (store mem p bs) (p + j) k = take k (drop (Z.to_nat j) bs).
Proof.
  induction k as [|k IH]; intros j Hj Hk; [now rewrite take_0|].
  cbn [read_n].
  destruct (lookup_lt_is_Some_2 bs (Z.to_nat j)) as [x Hx]; [lia|].
  rewrite (drop_S _ _ _ Hx). cbn [take]. f_equal.
  - unfold store.
    destruct (Z.leb_spec p (p + j)); [|lia].
    destruct (Z.ltb_spec (p + j) (p + Z.of_nat (length bs))); [|lia].
    cbn. replace (p + j - p) with j by lia.
    now rewrite nth_lookup, Hx.
  - replace (p + j + 1) with (p + (j + 1)) by lia.
    rewrite IH by lia. do 2 f_equal. lia.
Qed.

(** [memmove] leaves the bytes outside its destination as they are. *)
Lemma read_n_memmove_frame dst src len k : forall p,
  p + Z.of_nat k <= dst \/ dst + len <= p ->
  read_n (flat_static_buffer_base.memmove mem dst src len) p k = read_n mem p k.
Proof.
  induction k as [|k IH]; intros p Hp; [reflexivity|].
  cbn [read_n]. f_equal.
  - unfold flat_static_buffer_base.memmove.
    destruct (Z.leb_spec dst p); [|reflexivity].
    destruct (Z.ltb_spec p (dst + len)); [lia | reflexivity].
  - apply IH. lia.
Qed.

End RawMemoryMore.

Section BufferedReadStream.
Import flat_static_buffer_base buffered_read_stream.
Context {N : Type} `{ReadStream N}.

Variable read_size : flat_static_buffer_base.t -> Z -> Z.

(** The copy out of the buffer: the first bytes of the readable run go to
    the caller's region and leave the buffer. *)
Lemma copy_and_consume_spec (buffers : buffer) (s : t N) (mem : memory) :
  wf (buffer_ s) -> is_size_t (buf_size buffers) ->
  buf_data buffers + buf_size buffers <= in_ (buffer_ s)
  \/ out_ (buffer_ s) <= buf_data buffers ->
  exists b' mem',
    copy_and_consume buffers s mem =
      (Z.min (buf_size buffers) (size (buffer_ s)), (set_buffer s b', mem'))
    /\ wf b'
    /\ read_n mem' (buf_data buffers)
         (Z.to_nat (Z.min (buf_size buffers) (size (buffer_ s)))) =
       take (Z.to_nat (Z.min (buf_size buffers) (size (buffer_ s))))
         (readable mem (buffer_ s))
    /\ readable mem' b' =
       drop (Z.to_nat (Z.min (buf_size buffers) (size (buffer_ s))))
         (readable mem (buffer_ s)).
Proof.
  intros Hwf Hn Hdisj. destruct (flat_sizes _ Hwf) as (Hs & _ & _).
  pose proof Hwf as (H1 & H2 & H3 & H4). unfold is_size_t in Hn.
  assert (Hd : dist (in_ (buffer_ s)) (out_ (buffer_ s)) = size (buffer_ s))
    by reflexivity.
  unfold copy_and_consume, buffer_copy, views.data. cbn [buf_data buf_size].
  rewrite Hd.
  set (k := Z.min (buf_size buffers) (size (buffer_ s))).
  assert (Hk : 0 <= k <= size (buffer_ s)) by (unfold k; lia).
  assert (Hkn : k <= buf_size buffers) by (unfold k; lia).
  do 2 eexists. split; [reflexivity|].
  assert (Hwf' : wf (consume k (buffer_ s))).
  { unfold consume. destruct (Z.leb_spec (size (buffer_ s)) k);
      unfold wf; cbn; lia. }
  split; [exact Hwf'|]. split.
  - pose proof (read_n_memmove mem (buf_data buffers) (in_ (buffer_ s)) k
                  (Z.to_nat k) 0) as Hmv.
    rewrite !Z.add_0_r in Hmv. rewrite Hmv by lia.
    unfold readable, buffer_bytes. cbn [buf_data buf_size].
    rewrite read_n_take by lia. reflexivity.
  - destruct (flat_consume_spec
                (memmove mem (buf_data buffers) (in_ (buffer_ s)) k)
                (buffer_ s) k Hwf) as [Hread _]; [unfold is_size_t; lia|].
    rewrite Hread. f_equal.
    unfold readable, buffer_bytes. cbn [buf_data buf_size].
    apply read_n_memmove_frame. lia.
Qed.

(** Bytes already in the buffer are served first: when the buffer is not
    empty, [read_some] and [async_read_some] alike give the caller the
    first [min(size of the caller's region, size())] buffered bytes with
    no error, remove them from the buffer, and do not read the next
    layer. *)
Lemma buffered_bytes_served_first (buffers : buffer) (s : t N) (mem : memory) :
  wf (buffer_ s) -> is_size_t (buf_size buffers) ->
  0 < size (buffer_ s) ->
  buf_data buffers + buf_size buffers <= in_ (buffer_ s)
  \/ out_ (buffer_ s) <= buf_data buffers ->
  exists s' mem',
    read_some read_size buffers s mem =
      Returns (no_error, Z.min (buf_size buffers) (size (buffer_ s))) (s', mem')
    /\ async_read_some read_size 2 buffers s mem =
      Some (Returns (no_error, Z.min (buf_size buffers) (size (buffer_ s))) (s', mem'))
    /\ next_layer_ s' = next_layer_ s
    /\ read_n mem' (buf_data buffers)
         (Z.to_nat (Z.min (buf_size buffers) (size (buffer_ s)))) =
       take (Z.to_nat (Z.min (buf_size buffers) (size (buffer_ s))))
         (readable mem (buffer_ s))
    /\ readable mem' (buffer_ s') =
       drop (Z.to_nat (Z.min (buf_size buffers) (size (buffer_ s))))
         (readable mem (buffer_ s)).
Proof.
  intros Hwf Hn Hpos Hdisj.
  destruct (copy_and_consume_spec buffers s mem Hwf Hn Hdisj)
    as (b' & mem' & Hcopy & _ & Hout & Hkeep).
  exists (set_buffer s b'), mem'.
  unfold read_some, async_read_some. cbn [compose].
  unfold read_op_call. cbn [step_ b_ Z.eqb].
  destruct (Z.eqb_spec (size (buffer_ s)) 0) as [Hz|_]; [lia|].
  cbn [andb compose]. unfold read_op_call. cbn [step_ b_ Z.eqb].
  rewrite Hcopy. repeat split; assumption.
Qed.

(** The state after a read of the next layer into the prepared bytes of an
    empty buffer has been committed. *)
Lemma fill_state (b : flat_static_buffer_base.t) (mem : memory) (n : Z)
    (received : list byte) :
  wf b -> size b = 0 -> is_size_t n -> n <= max_size b ->
  Z.of_nat (length received) <= n ->
  exists b1 mem1,
    prepare n (b, mem) = Returns (mk_buffer (out_ b1) n) (b1, mem1)
    /\ wf (commit (Z.of_nat (length received)) b1)
    /\ begin_ b <= in_ (commit (Z.of_nat (length received)) b1)
    /\ out_ (commit (Z.of_nat (length received)) b1) <= end_ b
    /\ size (commit (Z.of_nat (length received)) b1) = Z.of_nat (length received)
    /\ readable (store mem1 (out_ b1) received)
         (commit (Z.of_nat (length received)) b1) = received.
Proof.
  intros Hwf Hz Hn Hfit Hlen. destruct (flat_sizes b Hwf) as (Hs & Hm & Hd).
  pose proof Hwf as (H1 & H2 & H3 & H4). unfold is_size_t in Hn.
  assert (Hcommit : forall b1, wf b1 -> in_ b1 = out_ b1 -> last_ b1 = out_ b1 + n ->
            last_ b1 <= end_ b1 -> begin_ b1 = begin_ b -> end_ b1 = end_ b ->
            forall m1,
            wf (commit (Z.of_nat (length received)) b1)
            /\ begin_ b <= in_ (commit (Z.of_nat (length received)) b1)
            /\ out_ (commit (Z.of_nat (length received)) b1) <= end_ b
            /\ size (commit (Z.of_nat (length received)) b1) = Z.of_nat (length received)
            /\ readable (store m1 (out_ b1) received)
                 (commit (Z.of_nat (length received)) b1) = received).
  { intros b1 Hwf1 Hio Hlast Hle Hb He m1. pose proof Hwf1 as (G1 & G2 & G3 & G4).
    assert (Hc : commit (Z.of_nat (length received)) b1 =
              flat_static_buffer_base.mk (begin_ b1) (in_ b1) (out_ b1 + Z.of_nat (length received))
                 (last_ b1) (end_ b1)).
    { unfold commit, dist. rewrite Hlast.
      replace (out_ b1 + n - out_ b1) with n by lia.
      rewrite wrap_small by (unfold is_size_t; lia).
      now rewrite Z.min_l by lia. }
    rewrite Hc.
    assert (Hwf2 : wf (flat_static_buffer_base.mk (begin_ b1) (in_ b1) (out_ b1 + Z.of_nat (length received))
                          (last_ b1) (end_ b1)))
      by (unfold wf; cbn; lia).
    destruct (flat_sizes _ Hwf2) as (Hs2 & _ & _). cbn in Hs2.
    split; [exact Hwf2|]. cbn [in_ out_]. split; [lia|]. split; [lia|].
    split; [lia|].
    unfold readable, buffer_bytes. cbn [buf_data buf_size in_]. rewrite Hs2, Hio.
    pose proof (read_n_store m1 (out_ b1) received
                  (Z.to_nat (out_ b1 + Z.of_nat (length received) - out_ b1)) 0) as Hst.
    rewrite Z.add_0_r in Hst. rewrite Hst by lia.
    cbn [Z.to_nat drop]. apply take_ge. lia. }
  unfold prepare, capacity, sz_sub. rewrite Hd, Hm, Hs.
  rewrite (wrap_small (end_ b - begin_ b - (out_ b - in_ b)))
    by (unfold is_size_t; lia).
  destruct (Z.leb_spec n (end_ b - out_ b)).
  - exists (flat_static_buffer_base.mk (begin_ b) (in_ b) (out_ b) (out_ b + n) (end_ b)), mem.
    split; [reflexivity|].
    apply Hcommit; cbn; try lia. unfold wf; cbn; lia.
  - destruct (Z.ltb_spec (end_ b - begin_ b - (out_ b - in_ b)) n); [lia|].
    destruct (Z.ltb_spec 0 (out_ b - in_ b)); [lia|].
    exists (flat_static_buffer_base.mk (begin_ b) (begin_ b) (begin_ b + (out_ b - in_ b))
              (begin_ b + (out_ b - in_ b) + n) (end_ b)), mem.
    split; [reflexivity|].
    apply Hcommit; cbn; try lia. unfold wf; cbn; lia.
Qed.

(** An empty buffer is filled from the next layer.  With a buffer
    ([capacity_] not 0) that holds nothing, [read_some] reads the next
    layer into the prepared bytes and commits what it received.  If the
    next layer reported an error, [read_some] returns 0 with that error
    and the bytes received stay in the buffer; otherwise the caller gets
    the first of them and the others stay in the buffer. *)
Lemma read_some_fills_buffer (buffers : buffer) (s : t N) (mem : memory)
    (received : list byte) (ec : error_code) (next : N) :
  wf (buffer_ s) -> is_size_t (buf_size buffers) ->
  size (buffer_ s) = 0 -> capacity_ s <> 0 ->
  is_size_t (read_size (buffer_ s) (capacity_ s)) ->
  read_size (buffer_ s) (capacity_ s) <= max_size (buffer_ s) ->
  stream_read_some (read_size (buffer_ s) (capacity_ s)) (next_layer_ s) =
    (received, ec, next) ->
  Z.of_nat (length received) <= read_size (buffer_ s) (capacity_ s) ->
  buf_data buffers + buf_size buffers <= begin_ (buffer_ s)
  \/ end_ (buffer_ s) <= buf_data buffers ->
  exists s' mem',
    read_some read_size buffers s mem =
      Returns (ec, if failed ec then 0
                   else Z.min (buf_size buffers) (Z.of_nat (length received)))
        (s', mem')
    /\ next_layer_ s' = next
    /\ (failed ec = true -> readable mem' (buffer_ s') = received)
    /\ (failed ec = false ->
        read_n mem' (buf_data buffers)
          (Z.to_nat (Z.min (buf_size buffers) (Z.of_nat (length received)))) =
        take (Z.to_nat (Z.min (buf_size buffers) (Z.of_nat (length received))))
          received
        /\ readable mem' (buffer_ s') =
           drop (Z.to_nat (Z.min (buf_size buffers) (Z.of_nat (length received))))
             received).
Proof.
  intros Hwf Hn Hz Hcap Hrs Hfit Hread Hlen Hdisj.
  destruct (fill_state (buffer_ s) mem _ received Hwf Hz Hrs Hfit Hlen)
    as (b1 & mem1 & Hprep & Hwf2 & Hlo & Hhi & Hsize2 & Hread2).
  unfold read_some. rewrite Hz. cbn [Z.eqb].
  destruct (Z.eqb_spec (capacity_ s) 0) as [|_]; [contradiction|].
  rewrite Hprep. cbn [buf_size set_buffer next_layer_ buffer_ capacity_ set_next_layer].
  rewrite Hread. cbn [buf_data].
  destruct (failed ec) eqn:Hec.
  - do 2 eexists. split; [reflexivity|]. cbn [next_layer_ buffer_].
    split; [reflexivity|]. split; [intros _; exact Hread2 | discriminate].
  - set (s2 := mk next (commit (Z.of_nat (length received)) b1) (capacity_ s)).
    destruct (copy_and_consume_spec buffers s2 (store mem1 (out_ b1) received))
      as (b' & mem' & Hcopy & _ & Hout & Hkeep);
      [exact Hwf2 | exact Hn | cbn [buffer_ s2];
        pose proof Hwf2 as (? & ? & ? & ?); lia |].
    cbn [buffer_ s2] in Hcopy, Hout, Hkeep.
    rewrite Hsize2, Hread2 in *.
    change (set_buffer (set_next_layer (set_buffer s b1) next)
              (commit (Z.of_nat (length received)) b1)) with s2.
    rewrite Hcopy. do 2 eexists. split; [reflexivity|].
    cbn [set_buffer next_layer_ buffer_ s2].
    split; [reflexivity|]. split; [discriminate|]. intros _. split; assumption.
Qed.

(** [async_read_some] with a buffer that holds nothing delivers the first
    of the bytes received from the next layer also when the next layer
    reported an error: the handler then receives the error together with a
    byte count, where [read_some] returns 0 and keeps the bytes. *)
Lemma async_read_some_fills_buffer (buffers : buffer) (s : t N) (mem : memory)
    (received : list byte) (ec : error_code) (next : N) :
  wf (buffer_ s) -> is_size_t (buf_size buffers) ->
  size (buffer_ s) = 0 -> capacity_ s <> 0 ->
  is_size_t (read_size (buffer_ s) (capacity_ s)) ->
  read_size (buffer_ s) (capacity_ s) <= max_size (buffer_ s) ->
  stream_read_some (read_size (buffer_ s) (capacity_ s)) (next_layer_ s) =
    (received, ec, next) ->
  Z.of_nat (length received) <= read_size (buffer_ s) (capacity_ s) ->
  buf_data buffers + buf_size buffers <= begin_ (buffer_ s)
  \/ end_ (buffer_ s) <= buf_data buffers ->
  exists s' mem',
    async_read_some read_size 2 buffers s mem =
      Some (Returns (ec, Z.min (buf_size buffers) (Z.of_nat (length received)))
              (s', mem'))
    /\ next_layer_ s' = next
    /\ read_n mem' (buf_data buffers)
         (Z.to_nat (Z.min (buf_size buffers) (Z.of_nat (length received)))) =
       take (Z.to_nat (Z.min (buf_size buffers) (Z.of_nat (length received))))
         received
    /\ readable mem' (buffer_ s') =
       drop (Z.to_nat (Z.min (buf_size buffers) (Z.of_nat (length received))))
         received
    /\ (failed ec = true -> 0 < buf_size buffers -> received <> [] ->
        async_read_some read_size 2 buffers s mem <>
        Some (read_some read_size buffers s mem)).
Proof.
  intros Hwf Hn Hz Hcap Hrs Hfit Hread Hlen Hdisj.
  destruct (fill_state (buffer_ s) mem _ received Hwf Hz Hrs Hfit Hlen)
    as (b1 & mem1 & Hprep & Hwf2 & Hlo & Hhi & Hsize2 & Hread2).
  set (s2 := mk next (commit (Z.of_nat (length received)) b1) (capacity_ s)).
  destruct (copy_and_consume_spec buffers s2 (store mem1 (out_ b1) received))
    as (b' & mem' & Hcopy & _ & Hout & Hkeep);
    [exact Hwf2 | exact Hn | cbn [buffer_ s2];
      pose proof Hwf2 as (? & ? & ? & ?); lia |].
  cbn [buffer_ s2] in Hcopy, Hout, Hkeep. rewrite Hsize2, Hread2 in *.
  assert (Hasync : async_read_some read_size 2 buffers s mem =
            Some (Returns (ec, Z.min (buf_size buffers) (Z.of_nat (length received)))
                    (set_buffer s2 b', mem'))).
  { unfold async_read_some. rewrite Hz. cbn [Z.eqb].
    destruct (Z.eqb_spec (capacity_ s) 0) as [|_]; [contradiction|].
    cbn [andb compose]. unfold read_op_call at 1. cbn [step_ b_ Z.eqb].
    rewrite Hz. cbn [Z.eqb].
    destruct (Z.eqb_spec (capacity_ s) 0) as [|_]; [contradiction|].
    rewrite Hprep.
    cbn [buf_size buf_data set_buffer next_layer_ buffer_ capacity_ set_next_layer].
    rewrite Hread. cbn [compose]. unfold read_op_call. cbn [step_ b_ Z.eqb].
    change (set_buffer (set_next_layer (set_buffer s b1) next)
              (commit (Z.of_nat (length received)) (buffer_ (set_next_layer (set_buffer s b1) next))))
      with s2.
    rewrite Hcopy. reflexivity. }
  exists (set_buffer s2 b'), mem'.
  split; [exact Hasync|]. split; [reflexivity|]. split; [exact Hout|].
  split; [exact Hkeep|].
  intros Hec Hroom Hsome. rewrite Hasync.
  unfold read_some. rewrite Hz. cbn [Z.eqb].
  destruct (Z.eqb_spec (capacity_ s) 0) as [|_]; [contradiction|].
  rewrite Hprep.
  cbn [buf_size buf_data set_buffer next_layer_ buffer_ capacity_ set_next_layer].
  rewrite Hread, Hec. intros [= Hk _].
  destruct received; [contradiction | cbn [length] in Hk; lia].
Qed.

(** Unless the next layer reports an error on a read into the buffer,
    [async_read_some] hands its handler what [read_some] returns, and
    leaves stream, buffer and memory in the same state; two calls of the
    operation suffice. *)
Lemma async_agrees_with_sync (buffers : buffer) (s : t N) (mem : memory) :
  size (buffer_ s) <> 0 \/ capacity_ s = 0
  \/ failed (snd (fst (stream_read_some (read_size (buffer_ s) (capacity_ s))
                         (next_layer_ s)))) = false ->
  async_read_some read_size 2 buffers s mem =
  Some (read_some read_size buffers s mem).
Proof.
  intros Hcase. unfold async_read_some, read_some.
  destruct (Z.eqb_spec (size (buffer_ s)) 0) as [Hz|Hnz].
  - destruct (Z.eqb_spec (capacity_ s) 0) as [Hc|Hc]; cbn [andb].
    + destruct (stream_read_some (buf_size buffers) (next_layer_ s)) as [[r e] nx].
      reflexivity.
    + destruct Hcase as [Hcase|[Hcase|Hcase]]; [contradiction | contradiction |].
      cbn [compose]. unfold read_op_call at 1. cbn [step_ b_ Z.eqb].
      destruct (Z.eqb_spec (size (buffer_ s)) 0) as [_|]; [|contradiction].
      destruct (Z.eqb_spec (capacity_ s) 0) as [|_]; [contradiction|].
      assert (Hw : forall w st, prepare (read_size (buffer_ s) (capacity_ s))
                                  (buffer_ s, mem) = Returns w st ->
                                buf_size w = read_size (buffer_ s) (capacity_ s)).
      { unfold prepare. intros w st.
        destruct (_ <=? _); [now intros [= <- _]|].
        destruct (_ <? _); [discriminate | now intros [= <- _]]. }
      destruct (prepare (read_size (buffer_ s) (capacity_ s)) (buffer_ s, mem))
        as [w [b1 mem1]|[b1 mem1]]; [|reflexivity].
      rewrite (Hw w (b1, mem1) eq_refl).
      cbn [buf_size buf_data set_buffer next_layer_ buffer_ capacity_ set_next_layer].
      destruct (stream_read_some (read_size (buffer_ s) (capacity_ s)) (next_layer_ s))
        as [[r e] nx]. cbn [fst snd] in Hcase. rewrite Hcase.
      unfold read_op_call. cbn [step_ b_ Z.eqb].
      cbn [buf_size buf_data set_buffer next_layer_ buffer_ capacity_ set_next_layer].
      destruct (copy_and_consume buffers _ _) as [k [s' mem']]. reflexivity.
  - cbn [andb compose]. unfold read_op_call at 1. cbn [step_ b_ Z.eqb].
    destruct (Z.eqb_spec (size (buffer_ s)) 0) as [|_]; [contradiction|].
    cbn [compose]. unfold read_op_call. cbn [step_ b_ Z.eqb].
    destruct (copy_and_consume buffers s mem) as [k [s' mem']]. reflexivity.
Qed.

End BufferedReadStream.

(** ** The properties above on concrete buffers, views and runs *)

(** A flat static buffer over 16 bytes holding 4, asked for 12 more: the
    readable bytes have to move to the front. *)
Lemma flat_prepare_outcome_witness :
  let b := flat_static_buffer_base.mk 500 502 506 506 516 in
  let mem : memory := Samples.letters in
  match flat_static_buffer_base.prepare 12 (b, mem) with
  | Throws_length_error s =>
      flat_static_buffer_base.max_size b < flat_static_buffer_base.size b + 12
      /\ s = (b, mem)
  | Returns w (b', mem') =>
      flat_static_buffer_base.size b + 12 <= flat_static_buffer_base.max_size b
      /\ flat_static_buffer_base.wf b'
      /\ flat_static_buffer_base.readable mem' b' = flat_static_buffer_base.readable mem b
      /\ w = mk_buffer (flat_static_buffer_base.out_ b') 12
      /\ flat_static_buffer_base.last_ b' = flat_static_buffer_base.out_ b' + 12
      /\ flat_static_buffer_base.last_ b' <= flat_static_buffer_base.end_ b'
      /\ flat_static_buffer_base.size b' = flat_static_buffer_base.size b
      /\ flat_static_buffer_base.max_size b' = flat_static_buffer_base.max_size b
  end.
Proof.
  intros b mem. apply (flat_prepare_outcome mem b 12).
  - unfold flat_static_buffer_base.wf, size_t_modulus; cbn; lia.
  - unfold is_size_t, size_t_modulus; lia.
Defined.

Lemma flat_data_impl_slice_witness :
  let b := flat_static_buffer_base.mk 500 502 506 506 516 in
  let mem : memory := Samples.letters in
  buffer_bytes mem (flat_static_buffer_base.views.data_impl 1 2 b) =
  take 2 (drop 1 (flat_static_buffer_base.readable mem b))
  /\ within (flat_static_buffer_base.views.data_impl 1 2 b)
       (flat_static_buffer_base.views.data b).
Proof.
  intros b mem. apply (flat_data_impl_slice mem b 1 2).
  - unfold flat_static_buffer_base.wf, size_t_modulus; cbn; lia.
  - unfold is_size_t, size_t_modulus; lia.
  - unfold is_size_t, size_t_modulus; lia.
Defined.

Lemma flat_shrink_impl_spec_witness :
  let b := flat_static_buffer_base.mk 500 502 506 510 516 in
  let mem : memory := Samples.letters in
  exists b',
    flat_static_buffer_base.shrink_impl 3 (b, mem) = Returns tt (b', mem)
    /\ flat_static_buffer_base.size b' = 1
    /\ flat_static_buffer_base.last_ b' = 506.
Proof.
  intros b mem.
  destruct (flat_shrink_impl_spec mem b 3) as (b' & Hrun & _ & _ & Hsize & Hlast).
  - unfold flat_static_buffer_base.wf, size_t_modulus; cbn; lia.
  - unfold is_size_t, size_t_modulus; lia.
  - exists b'. split; [exact Hrun|]. split; [exact Hsize | exact Hlast].
Defined.

Lemma flat_clear_spec_witness :
  let b := flat_static_buffer_base.mk 500 502 506 506 516 in
  let mem : memory := Samples.letters in
  flat_static_buffer_base.size (flat_static_buffer_base.clear b) = 0
  /\ throws (flat_static_buffer_base.prepare 17
               (flat_static_buffer_base.clear b, mem)) = true.
Proof.
  intros b mem.
  destruct (flat_clear_spec mem b 17) as (Hsize & _ & _ & Hthrows).
  - unfold flat_static_buffer_base.wf, size_t_modulus; cbn; lia.
  - unfold is_size_t, size_t_modulus; lia.
  - split; [exact Hsize|]. apply Hthrows. reflexivity.
Defined.

Lemma flat_reset_spec_witness :
  let mem : memory := Samples.letters in
  flat_static_buffer_base.wf (flat_static_buffer_base.reset 500 16)
  /\ flat_static_buffer_base.capacity (flat_static_buffer_base.reset 500 16) = 16
  /\ throws (flat_static_buffer_base.prepare 17
               (flat_static_buffer_base.reset 500 16, mem)) = true.
Proof.
  intros mem.
  destruct (flat_reset_spec mem 500 16 17) as (Hwf & _ & Hcap & _ & Hthrows).
  - unfold is_size_t, size_t_modulus; lia.
  - unfold is_size_t, size_t_modulus; lia.
  - split; [exact Hwf|]. split; [exact Hcap|]. apply Hthrows. lia.
Defined.

(** A block of 4096 bytes with 2 used. *)
Lemma element_acquire_spec_witness :
  is_Some (storage_element.acquire (Samples.block 1000 2) 10)
  /\ ~ is_Some (storage_element.acquire (Samples.block 1000 2) 4095).
Proof.
  destruct (element_acquire_spec Samples.letters (Samples.block 1000 2) 10)
    as [Hfits _];
    [unfold storage_element.wf, size_t_modulus; cbn; lia | lia |].
  destruct (element_acquire_spec Samples.letters (Samples.block 1000 2) 4095)
    as [Hnot _];
    [unfold storage_element.wf, size_t_modulus; cbn; lia | lia |].
  split.
  - apply Hfits. intros H; discriminate H.
  - intros H. apply Hnot in H. apply H. reflexivity.
Defined.

(** A block of which 2 bytes were consumed before and 4 are used. *)
Lemma element_consume_clear_spec_witness :
  let e := storage_element.mk 1000 5096 1002 1006 in
  let e' := storage_element.mk 1000 5096 1003 1006 in
  storage_element.capacity (storage_element.clear e') = 4096
  /\ storage_element.available (storage_element.clear e') = 4093.
Proof.
  intros e e'.
  destruct (element_consume_clear_spec e 1 e')
    as (_ & _ & _ & Hcap & Havail).
  - unfold storage_element.wf, size_t_modulus; cbn; lia.
  - lia.
  - reflexivity.
  - split; [exact Hcap | exact Havail].
Defined.

Lemma make_sequence_after_consume_witness :
  let c := storage_element_container.mk Samples.two_blocks 100 4096 in
  exists c' freed,
    storage_element_container.consume 3 c = Some (c', freed)
    /\ buffer_sequence.flatten Samples.letters (storage_element_container.store_ c')
         (storage_element_container.make_sequence c') =
       Some (drop 3 (storage_element_container.readable Samples.letters
                       (storage_element_container.store_ c))).
Proof.
  intros c.
  destruct (make_sequence_after_consume Samples.letters c 3)
    as (c' & freed & Hrun & Hflat & _).
  - repeat constructor; unfold storage_element.wf, size_t_modulus; cbn; lia.
  - unfold is_size_t, size_t_modulus; lia.
  - exists c', freed. split; [exact Hrun | exact Hflat].
Defined.

Lemma adjust_whole_witness :
  let c := storage_element_container.mk Samples.two_blocks 100 4096 in
  exists v',
    buffer_sequence.adjust Samples.two_blocks
      (storage_element_container.make_sequence c) 0 10 = Some v'
    /\ buffer_sequence.flatten Samples.letters Samples.two_blocks v' =
       Some (storage_element_container.readable Samples.letters Samples.two_blocks).
Proof.
  intros c. apply (adjust_whole Samples.letters c 10).
  - repeat constructor; unfold storage_element.wf, size_t_modulus; cbn; lia.
  - reflexivity.
  - unfold is_size_t, size_t_modulus; lia.
  - intros H; discriminate H.
Defined.

(** A block with 6 readable bytes: from position 1, at most 2 bytes. *)
Lemma adjust_single_block_witness :
  let e := Samples.block 1000 6 in
  let v := storage_element_container.make_sequence
             (storage_element_container.mk [e] 100 4096) in
  exists v',
    buffer_sequence.adjust [e] v 1 2 = Some v'
    /\ buffer_sequence.regions [e] v' = Some [mk_buffer 1004 2].
Proof.
  intros e v.
  destruct (adjust_single_block Samples.letters e 1 2 100 4096)
    as (v' & Hrun & Hregions & _).
  - unfold storage_element.wf, size_t_modulus; cbn; lia.
  - unfold is_size_t, size_t_modulus; lia.
  - unfold is_size_t, size_t_modulus; lia.
  - reflexivity.
  - lia.
  - exists v'. split; [exact Hrun | exact Hregions].
Defined.

Lemma adjust_empty_witness :
  exists v',
    buffer_sequence.adjust Samples.two_blocks (Samples.whole Samples.two_blocks) 1 0 =
      Some v'
    /\ buffer_sequence.empty v'.
Proof.
  apply (adjust_empty Samples.two_blocks (Samples.whole Samples.two_blocks) 1 0).
  - right. exists 0, 2. repeat split; cbn; lia.
  - unfold is_size_t, size_t_modulus; lia.
  - unfold is_size_t, size_t_modulus; lia.
  - now left.
Defined.

(** A handle over a buffer of at most 8 bytes that holds 1. *)
Lemma handle_prepare_clean_witness :
  let impl := dynamic_buffer_handle.make (vector_buffer.mk [x01] 8) in
  throws (dynamic_buffer_handle.prepare 8 impl) = true
  /\ final_state (dynamic_buffer_handle.prepare 8 impl) = impl.
Proof.
  intros impl.
  destruct (handle_prepare_clean impl 8) as [Hiff Hsame].
  - reflexivity.
  - unfold is_size_t, size_t_modulus; lia.
  - reflexivity.
  - assert (Ht : throws (dynamic_buffer_handle.prepare 8 impl) = true)
      by (apply Hiff; reflexivity).
    split; [exact Ht | exact (Hsame Ht)].
Defined.

Lemma handle_prepare_commit_witness :
  let impl := dynamic_buffer_handle.make (vector_buffer.mk [x01] 8) in
  exists w impl1,
    dynamic_buffer_handle.prepare 5 impl = Returns w impl1
    /\ dynamic_buffer_handle.size impl1 = 1
    /\ dynamic_buffer_handle.size (dynamic_buffer_handle.commit 3 impl1) = 4
    /\ dynamic_buffer_handle.data (dynamic_buffer_handle.commit 3 impl1) = [].
Proof.
  intros impl.
  destruct (handle_prepare_commit impl 5 3)
    as (w & impl1 & Hrun & _ & Hsize & _ & _ & Hcommitted & _ & Hdata).
  - reflexivity.
  - unfold is_size_t, size_t_modulus; lia.
  - unfold is_size_t, size_t_modulus; lia.
  - intros H; discriminate H.
  - reflexivity.
  - exists w, impl1. split; [exact Hrun|]. split; [exact Hsize|].
    split; [exact Hcommitted | exact Hdata].
Defined.

(** A handle with 1 readable byte and 5 prepared ones, asked to consume 3. *)
Lemma handle_consume_spec_witness :
  let impl := dynamic_buffer_handle.mk
                (vector_buffer.mk [x01; x02; x03; x04; x05; x06] 8) 5 in
  dynamic_buffer_handle.size impl = 1
  /\ dynamic_buffer_handle.size (dynamic_buffer_handle.consume 3 impl) =
     size_t_modulus - 2.
Proof.
  intros impl.
  destruct (handle_consume_spec impl 3) as (_ & _ & _ & Hwraps).
  - split; intros H; discriminate H.
  - reflexivity.
  - split; intros H; discriminate H.
  - split; [reflexivity|]. apply Hwraps. reflexivity.
Defined.

Lemma proxy_grow_flat_witness :
  let b := flat_static_buffer_base.mk 500 502 506 506 516 in
  let mem : memory := Samples.letters in
  dynamic_buffer_v0_proxy.size
    (final_state (dynamic_buffer_v0_proxy.grow 12 (b, mem))) = 16
  /\ throws (dynamic_buffer_v0_proxy.grow 13 (b, mem)) = true.
Proof.
  intros b mem.
  assert (Hwf : flat_static_buffer_base.wf b)
    by (unfold flat_static_buffer_base.wf, size_t_modulus; cbn; lia).
  pose proof (proxy_grow_flat mem b 12 Hwf) as Hfits.
  pose proof (proxy_grow_flat mem b 13 Hwf) as Hnot.
  cbv zeta in Hfits, Hnot.
  destruct Hfits as (_ & _ & Hgrown); [unfold is_size_t, size_t_modulus; lia|].
  destruct Hnot as (Hiff & _); [unfold is_size_t, size_t_modulus; lia|].
  split.
  - destruct Hgrown as (_ & Hsize & _); [reflexivity | exact Hsize].
  - apply Hiff. reflexivity.
Defined.

Lemma proxy_make_flat_witness :
  let b := flat_static_buffer_base.mk 500 502 506 510 516 in
  let mem : memory := Samples.letters in
  exists b',
    dynamic_buffer_v0_proxy.make (b, mem) = Returns tt (b', mem)
    /\ dynamic_buffer_v0_proxy.size (b', mem) = 4
    /\ flat_static_buffer_base.last_ b' = flat_static_buffer_base.out_ b'.
Proof.
  intros b mem.
  destruct (proxy_make_flat mem b) as (b' & Hrun & _ & Hsize & _ & Hlast).
  - unfold flat_static_buffer_base.wf, size_t_modulus; cbn; lia.
  - exists b'. split; [exact Hrun|]. split; [exact Hsize | exact Hlast].
Defined.

(** The write of the greeting fails with a transport error. *)
Lemma transport_error_ends_run_witness :
  socks.run (socks.make [] 1080 [] [] false)
    [socks.mk_completion (socks.collaborator_error 104) []] =
  [socks.async_write [x05; x02; x00; x02]; socks.complete_now socks.success;
   socks.complete_now (socks.collaborator_error 104)].
Proof.
  destruct (transport_error_ends_run [] 1080 [] [] false
              (socks.collaborator_error 104) [] []) as [Hwrite _].
  - reflexivity.
  - exact Hwrite.
Defined.

(** The server selects username/password and the sub-negotiation succeeds. *)
Lemma run_ends_in_error_witness :
  exists ec,
    last (socks.run (socks.make [] 1080 [] [] false)
            [socks.mk_completion socks.success [];
             socks.mk_completion socks.success [x05; x02];
             socks.mk_completion socks.success []]) =
      Some (socks.complete_now ec)
    /\ socks.failed ec = true.
Proof.
  apply (run_ends_in_error [] 1080 [] [] false). cbn. lia.
Defined.

(** A stream whose buffer holds 4 bytes, read into a region of 3. *)
Lemma buffered_bytes_served_first_witness :
  let read_size := fun (_ : flat_static_buffer_base.t) (capacity : Z) => capacity in
  let s := buffered_read_stream.mk
             ([] : list (list byte * buffered_read_stream.error_code))
             (flat_static_buffer_base.mk 500 502 506 506 516) 8 in
  exists s' mem',
    buffered_read_stream.read_some read_size (mk_buffer 100 3) s Samples.letters =
      Returns (buffered_read_stream.no_error, 3) (s', mem')
    /\ buffered_read_stream.async_read_some read_size 2 (mk_buffer 100 3) s
         Samples.letters =
       Some (Returns (buffered_read_stream.no_error, 3) (s', mem')).
Proof.
  intros read_size s.
  destruct (buffered_bytes_served_first read_size (mk_buffer 100 3) s Samples.letters)
    as (s' & mem' & Hsync & Hasync & _).
  - unfold flat_static_buffer_base.wf, size_t_modulus; cbn; lia.
  - unfold is_size_t, size_t_modulus; cbn; lia.
  - reflexivity.
  - left. cbn. lia.
  - exists s', mem'. split; [exact Hsync | exact Hasync].
Defined.

(** A stream with an empty buffer of 16 bytes whose next layer delivers
    "abc" together with an error, read into a region of 2 bytes. *)
Lemma read_some_fills_buffer_witness :
  let read_size := fun (_ : flat_static_buffer_base.t) (capacity : Z) => capacity in
  let s := buffered_read_stream.mk
             [(["a"; "b"; "c"]%byte, buffered_read_stream.error 1)]
             (flat_static_buffer_base.reset 500 16) 8 in
  exists s' mem',
    buffered_read_stream.read_some read_size (mk_buffer 100 2) s Samples.letters =
      Returns (buffered_read_stream.error 1, 0) (s', mem')
    /\ flat_static_buffer_base.readable mem' (buffered_read_stream.buffer_ s') =
       ["a"; "b"; "c"]%byte.
Proof.
  intros read_size s.
  destruct (read_some_fills_buffer read_size (mk_buffer 100 2) s Samples.letters
              ["a"; "b"; "c"]%byte (buffered_read_stream.error 1) [])
    as (s' & mem' & Hrun & _ & Hkept & _).
  - unfold flat_static_buffer_base.wf, size_t_modulus; cbn; lia.
  - unfold is_size_t, size_t_modulus; cbn; lia.
  - reflexivity.
  - cbn. lia.
  - unfold is_size_t, size_t_modulus; cbn; lia.
  - cbn. intros H; discriminate H.
  - reflexivity.
  - cbn. lia.
  - left. cbn. lia.
  - exists s', mem'. split; [exact Hrun | exact (Hkept eq_refl)].
Defined.

Lemma async_read_some_fills_buffer_witness :
  let read_size := fun (_ : flat_static_buffer_base.t) (capacity : Z) => capacity in
  let s := buffered_read_stream.mk
             [(["a"; "b"; "c"]%byte, buffered_read_stream.error 1)]
             (flat_static_buffer_base.reset 500 16) 8 in
  exists s' mem',
    buffered_read_stream.async_read_some read_size 2 (mk_buffer 100 2) s
      Samples.letters =
      Some (Returns (buffered_read_stream.error 1, 2) (s', mem'))
    /\ read_n mem' 100 2 = ["a"; "b"]%byte
    /\ flat_static_buffer_base.readable mem' (buffered_read_stream.buffer_ s') =
       ["c"]%byte.
Proof.
  intros read_size s.
  destruct (async_read_some_fills_buffer read_size (mk_buffer 100 2) s Samples.letters
              ["a"; "b"; "c"]%byte (buffered_read_stream.error 1) [])
    as (s' & mem' & Hrun & _ & Hout & Hkept & _).
  - unfold flat_static_buffer_base.wf, size_t_modulus; cbn; lia.
  - unfold is_size_t, size_t_modulus; cbn; lia.
  - reflexivity.
  - cbn. lia.
  - unfold is_size_t, size_t_modulus; cbn; lia.
  - cbn. intros H; discriminate H.
  - reflexivity.
  - cbn. lia.
  - left. cbn. lia.
  - exists s', mem'. split; [exact Hrun|]. split; [exact Hout | exact Hkept].
Defined.

(** The same stream with a next layer that delivers "abc" without error. *)
Lemma async_agrees_with_sync_witness :
  let read_size := fun (_ : flat_static_buffer_base.t) (capacity : Z) => capacity in
  let s := buffered_read_stream.mk
             [(["a"; "b"; "c"]%byte, buffered_read_stream.no_error)]
             (flat_static_buffer_base.reset 500 16) 8 in
  buffered_read_stream.async_read_some read_size 2 (mk_buffer 100 2) s
    Samples.letters =
  Some (buffered_read_stream.read_some read_size (mk_buffer 100 2) s Samples.letters).
Proof.
  intros read_size s.
  apply (async_agrees_with_sync read_size (mk_buffer 100 2) s Samples.letters).
  right. right. reflexivity.
Defined.
